(** * wxAnyThread: calling methods of wx objects from any thread

    A shallow embedding of [wxAnyThread/__init__.py] and the properties of its
    cross-thread call protocol.

    The module has three parts: [EventWithData], a completion signal carrying
    a result or a captured exception; [MethodInvocationEvent], the event posted
    to the GUI thread, with its two halves [invoke] (caller side) and
    [process] (owner side); and the decorator [anythread], whose [invoker]
    either calls the function directly (main thread) or marshals the call.

    Python objects that are mutated and shared between threads live in a heap
    ([gmap loc object]); code is written in a small state-and-exception monad;
    threads are interleaved by a step relation whose atomic steps are the
    statements of [invoker] and [invoke]. *)

From Stdlib Require Import Ascii.
From stdpp Require Import base gmap list strings pretty relations.

Set Warnings "-register-all".

Open Scope string_scope.

(** ** Python values and exceptions *)

Definition loc := positive.

(** The exception classes that occur in this development.  Every one of them
    inherits the constructor of [BaseException] (any positional arguments are
    accepted and stored in [args]); all but [KeyError] inherit its [__str__].
    [UserDefined n] is a class declared as [class n(Exception): pass]. *)
Inductive exc_class :=
| BaseException
| Exception
| AssertionError
| AttributeError
| IndexError
| KeyError
| KeyboardInterrupt
| RuntimeError
| SystemExit
| TypeError
| ValueError
| ZeroDivisionError
| UserDefined (name : string).

Global Instance exc_class_eq_dec : EqDecision exc_class.
Proof. solve_decision. Defined.

Inductive val :=
| VNone
| VBool (b : bool)
| VInt (z : Z)
| VStr (s : string)
| VTuple (items : list val)
| VObj (l : loc)
| VExc (c : exc_class) (args : list val).

(** A traceback is the list of the frames between the place where the
    exception was caught and the place where it was raised.  The frames added
    while an exception unwinds through further callers are not tracked. *)
Definition py_traceback := list string.

Definition class_name (c : exc_class) : string :=
  match c with
  | BaseException => "BaseException"
  | Exception => "Exception"
  | AssertionError => "AssertionError"
  | AttributeError => "AttributeError"
  | IndexError => "IndexError"
  | KeyError => "KeyError"
  | KeyboardInterrupt => "KeyboardInterrupt"
  | RuntimeError => "RuntimeError"
  | SystemExit => "SystemExit"
  | TypeError => "TypeError"
  | ValueError => "ValueError"
  | ZeroDivisionError => "ZeroDivisionError"
  | UserDefined n => n
  end.

(** *** [repr] and [str] *)

Definition squote : ascii := "'"%char.
Definition dquote : ascii := "034"%char.
Definition backslash : ascii := "\"%char.

Fixpoint str_contains (c : ascii) (s : string) : bool :=
  match s with
  | EmptyString => false
  | String a s' => if Ascii.eqb a c then true else str_contains c s'
  end.

Definition hex_digit (n : N) : ascii :=
  Ascii.ascii_of_N (if (n <? 10)%N then 48 + n else 87 + n)%N.

Definition repr_char (q : ascii) (a : ascii) : string :=
  let n := Ascii.N_of_ascii a in
  if Ascii.eqb a backslash then String backslash (String backslash EmptyString)
  else if Ascii.eqb a q then String backslash (String q EmptyString)
  else if (n =? 10)%N then String backslash "n"
  else if (n =? 13)%N then String backslash "r"
  else if (n =? 9)%N then String backslash "t"
  else if ((n <? 32) || (n =? 127))%N
       then String backslash
              (String "x" (String (hex_digit (n / 16)) (String (hex_digit (n mod 16)) EmptyString)))
  else String a EmptyString.

Fixpoint repr_chars (q : ascii) (s : string) : string :=
  match s with
  | EmptyString => EmptyString
  | String a s' => repr_char q a ++ repr_chars q s'
  end.

(** [repr] of a [str]: single quotes unless the text has a single quote and no
    double quote; control characters are escaped, all others are kept. *)
Definition repr_str (s : string) : string :=
  let q := if str_contains squote s && negb (str_contains dquote s)
           then dquote else squote in
  String q (repr_chars q s ++ String q EmptyString).

Fixpoint join (sep : string) (l : list string) : string :=
  match l with
  | [] => ""
  | [x] => x
  | x :: l' => x ++ sep ++ join sep l'
  end.

Definition repr_tuple (rs : list string) : string :=
  match rs with
  | [r] => "(" ++ r ++ ",)"
  | _ => "(" ++ join ", " rs ++ ")"
  end.

Fixpoint py_repr (v : val) : string :=
  match v with
  | VNone => "None"
  | VBool true => "True"
  | VBool false => "False"
  | VInt z => pretty z
  | VStr s => repr_str s
  | VTuple items => repr_tuple (List.map py_repr items)
  | VObj l => "<object at " ++ pretty (Zpos l) ++ ">"
  | VExc c args => class_name c ++ "(" ++ join ", " (List.map py_repr args) ++ ")"
  end.

(** [BaseException.__str__]: the empty string without arguments, [str] of a
    single argument, [str] of the argument tuple otherwise.  [KeyError.__str__]
    shows a single argument with [repr]. *)
Fixpoint py_str (v : val) : string :=
  match v with
  | VStr s => s
  | VExc c args =>
      match args with
      | [] => ""
      | [a] => if decide (c = KeyError) then py_repr a else py_str a
      | _ => repr_tuple (List.map py_repr args)
      end
  | _ => py_repr v
  end.

(** The message of an exception instance, [str(e)]. *)
Definition exc_message (c : exc_class) (args : list val) : string :=
  py_str (VExc c args).

(** ** Outcomes of calls *)

(** A call returns a value or raises an exception instance (its class and
    [args]) with a traceback. *)
Inductive outcome (A : Type) :=
| Ret (a : A)
| Raise (c : exc_class) (args : list val) (tb : py_traceback).
Arguments Ret {A} a.
Arguments Raise {A} c args tb.

(** ** Objects *)

(** [threading.Event]: the internal flag.  [set_calls] is ghost state counting
    the calls of [set()]; no code reads it. *)
Record threading_Event := mk_threading_Event {
  flag : bool;
  set_calls : nat
}.

(** An instance of [EventWithData].  [__init__] creates [_event], [exception]
    and [traceback]; [result] is created by [process] and [traceback] is
    deleted by [invoke], so for these two the outer [option] says whether the
    attribute exists.  The inner [option] of [exception] and [traceback] is
    Python's [None]. *)
Record EventWithData := mk_EventWithData {
  _event : threading_Event;
  result : option val;
  exception : option (exc_class * list val);
  traceback : option (option py_traceback)
}.

(** A wx object able to receive events ([wx.EvtHandler]): its instance
    attributes and its dynamic event table.  An entry [(id, lastId, eventType)]
    is one [Connect(id, lastId, eventType, handler)]; this module connects
    only [handler], and only for its own event type. *)
Record EvtHandler := mk_EvtHandler {
  attrs : gmap string val;
  table : list (Z * Z * Z)
}.

Inductive object :=
| OEvtHandler (h : EvtHandler)
| OEventWithData (e : EventWithData).

Section Model.

Context {W : Type}.

(** A Python callable: positional arguments, keyword arguments, and its effect
    on the program's own state [W] (the GUI). *)
Definition callable : Type :=
  list val → gmap string val → W → outcome val * W.

(** An instance of [MethodInvocationEvent].  Its four attributes are assigned
    once, in [__init__]; [event] refers to the shared [EventWithData]. *)
Record MethodInvocationEvent := mk_MethodInvocationEvent {
  func : callable;
  args : list val;
  kwds : gmap string val;
  event : loc
}.

(** The module global [_EVT_INVOKE_METHOD = wx.NewId()], the heap, the events
    posted with [wx.PostEvent] and not yet dispatched (with the object each
    was posted to), and the program's own state. *)
Record state := mk_state {
  _EVT_INVOKE_METHOD : Z;
  heap : gmap loc object;
  pending : list (loc * MethodInvocationEvent);
  world : W
}.

Definition set_heap (h : gmap loc object) (σ : state) : state :=
  mk_state (_EVT_INVOKE_METHOD σ) h (pending σ) (world σ).
Definition set_pending (q : list (loc * MethodInvocationEvent)) (σ : state) : state :=
  mk_state (_EVT_INVOKE_METHOD σ) (heap σ) q (world σ).
Definition set_world (w : W) (σ : state) : state :=
  mk_state (_EVT_INVOKE_METHOD σ) (heap σ) (pending σ) w.

(** ** The monad of Python code: state and exceptions *)

Definition M (A : Type) : Type := state → outcome A * state.

Definition ret {A} (a : A) : M A := λ σ, (Ret a, σ).

Definition bind {A B} (m : M A) (k : A → M B) : M B :=
  λ σ, match m σ with
       | (Ret a, σ') => k a σ'
       | (Raise c a tb, σ') => (Raise c a tb, σ')
       end.

(** [raise] of an instance of [c] with arguments [a], in the function [fn] *)
Definition raise {A} (c : exc_class) (a : list val) (fn : string) : M A :=
  λ σ, (Raise c a [fn], σ).

(** [try: m / except cls: h] *)
Definition try_except {A} (m : M A) (cls : exc_class) (h : M A) : M A :=
  λ σ, match m σ with
       | (Raise c a tb, σ') =>
           if decide (c = cls) then h σ' else (Raise c a tb, σ')
       | r => r
       end.

(** [try: m / except: h], where [h] receives [sys.exc_info()] *)
Definition try_except_all {A} (m : M A)
    (h : exc_class * (exc_class * list val) * py_traceback → M A) : M A :=
  λ σ, match m σ with
       | (Raise c a tb, σ') => h (c, (c, a), tb) σ'
       | r => r
       end.

Notation "x <- m ;; k" := (bind m (λ x, k))
  (at level 100, m at next level, right associativity).
Notation "m ;;; k" := (bind m (λ _, k))
  (at level 100, right associativity).

(** The call of [f] with positional arguments [a] and keyword arguments [k] *)
Definition call (f : callable) (a : list val) (k : gmap string val) : M val :=
  λ σ, let '(o, w) := f a k (world σ) in (o, set_world w σ).

(** [t[i]] on a tuple *)
Definition index (t : list val) (i : nat) (fn : string) : M val :=
  match t !! i with
  | Some v => ret v
  | None => raise IndexError [VStr "tuple index out of range"] fn
  end.

(** ** class EventWithData *)

Definition no_attribute (name : string) : list val :=
  [VStr ("'EventWithData' object has no attribute '" ++ name ++ "'")].

(** Attribute access through a reference: an object that is not an
    [EventWithData] has none of its attributes or methods. *)
Definition getattr {A} (l : loc) (name : string)
    (get : EventWithData → option A) (fn : string) : M A :=
  λ σ, match heap σ !! l with
       | Some (OEventWithData e) =>
           match get e with
           | Some a => (Ret a, σ)
           | None => (Raise AttributeError (no_attribute name) [fn], σ)
           end
       | _ => (Raise AttributeError (no_attribute name) [fn], σ)
       end.

Definition setattr (l : loc) (name : string)
    (upd : EventWithData → EventWithData) (fn : string) : M unit :=
  λ σ, match heap σ !! l with
       | Some (OEventWithData e) =>
           (Ret tt, set_heap (<[l := OEventWithData (upd e)]> (heap σ)) σ)
       | _ => (Raise AttributeError (no_attribute name) [fn], σ)
       end.

(** [__init__]: a new object, with a new [threading.Event] (flag false) *)
Definition EventWithData_new : EventWithData :=
  {| _event := mk_threading_Event false 0;
     result := None;
     exception := None;
     traceback := Some None |}.

Definition EventWithData_init : M loc :=
  λ σ, let l := fresh (dom (heap σ)) in
       (Ret l, set_heap (<[l := OEventWithData EventWithData_new]> (heap σ)) σ).

(** [threading.Event.set]: the flag becomes true *)
Definition threading_Event_set (t : threading_Event) : threading_Event :=
  mk_threading_Event true (S (set_calls t)).

Definition EventWithData_set (self : loc) : M unit :=
  setattr self "set"
    (λ e, mk_EventWithData (threading_Event_set (_event e))
            (result e) (exception e) (traceback e)) "process".

(** [wait] returns once the flag is true; until then the thread is blocked.
    [is_set] tells whether [wait] can return. *)
Definition is_set (self : loc) (σ : state) : bool :=
  match heap σ !! self with
  | Some (OEventWithData e) => flag (_event e)
  | _ => false
  end.

Definition set_exc_info (self : loc)
    (exc_info : exc_class * (exc_class * list val) * py_traceback) : M unit :=
  setattr self "set_exc_info"
    (λ e, mk_EventWithData (_event e) (result e)
            (Some (snd (fst exc_info))) (Some (Some (snd exc_info))))
    "process".

(** ** class MethodInvocationEvent *)

(** [__init__]: stores the callable and its arguments and allocates the
    event's own [EventWithData]. *)
Definition MethodInvocationEvent_init (func : callable) (args : list val)
    (kwds : gmap string val) : M MethodInvocationEvent :=
  e <- EventWithData_init ;;
  ret (mk_MethodInvocationEvent func args kwds e).

(** Modelled from the spec: [wx.PostEvent(dest, event)], the toolkit's
    primitive that posts a payload to the queue of the owner thread; wx is
    not part of the source.  The event is queued for [dest], which must be
    an event handler. *)
Definition wx_PostEvent (dest : val) (evt : MethodInvocationEvent) : M unit :=
  λ σ, match dest with
       | VObj l =>
           match heap σ !! l with
           | Some (OEvtHandler _) =>
               (Ret tt, set_pending (pending σ ++ [(l, evt)]) σ)
           | _ => (Raise TypeError
                     [VStr "PostEvent(): argument 1 has unexpected type"]
                     ["invoke"], σ)
           end
       | _ => (Raise TypeError
                 [VStr "PostEvent(): argument 1 has unexpected type"]
                 ["invoke"], σ)
       end.

(** [invoke], first statement: [wx.PostEvent(self.args[0], self)] *)
Definition invoke_post (self : MethodInvocationEvent) : M unit :=
  dest <- index (args self) 0 "invoke" ;;
  wx_PostEvent dest self.

(** [type(exception)(exception)]: a new instance of the class of [exception],
    constructed from the single argument [exception].  Every class of
    [exc_class] inherits the constructor of [BaseException], which accepts
    any arguments, so for them the construction succeeds; a class whose own
    constructor rejects a single argument (the call would raise [TypeError]
    here) is not a member of [exc_class]. *)
Definition construct_same_type (exception : option (exc_class * list val))
    : M (exc_class * list val) :=
  match exception with
  | Some (c, a) => ret (c, [VExc c a])
  | None => raise TypeError [VStr "NoneType takes no arguments"] "invoke"
  end.

(** [raise e.with_traceback(tb)] *)
Definition raise_with_traceback {A} (e : exc_class * list val)
    (tb : option py_traceback) : M A :=
  λ σ, (Raise (fst e) (snd e) (default [] tb), σ).

(** [invoke], the body of [except AttributeError:] *)
Definition reraise_stored (self : MethodInvocationEvent) : M val :=
  exc <- getattr (event self) "exception" (λ e, Some (exception e)) "invoke" ;;
  tb <- getattr (event self) "traceback" traceback "invoke" ;;
  setattr (event self) "traceback"
    (λ e, mk_EventWithData (_event e) (result e) (exception e) None)
    "invoke" ;;;
  e <- construct_same_type exc ;;
  raise_with_traceback e tb.

(** [invoke], after [self.event.wait()] has returned: the [try] statement *)
Definition invoke_read (self : MethodInvocationEvent) : M val :=
  try_except
    (getattr (event self) "result" result "invoke")
    AttributeError
    (reraise_stored self).

(** [process]: run the method, record the outcome, signal. *)
Definition process (self : MethodInvocationEvent) : M val :=
  try_except_all
    (res <- call (func self) (args self) (kwds self) ;;
     setattr (event self) "result"
       (λ e, mk_EventWithData (_event e) (Some res) (exception e) (traceback e))
       "process")
    (λ exc_info, set_exc_info (event self) exc_info) ;;;
  EventWithData_set (event self) ;;;
  ret VNone.

Definition handler (evt : MethodInvocationEvent) : M val :=
  process evt.

(** ** The wx event loop (owner thread) *)

Definition connected (eventType : Z) (h : EvtHandler) : bool :=
  bool_decide (Exists (λ e, e.2 = eventType) (table h)).

(** Modelled from the spec: the event loop of the owner thread, which runs
    the handler registered for the reserved event type on the object an
    event was posted to; wx is not part of the source.  One turn of the loop
    on the pending event number [i]: the event leaves the queue and, when the
    object it was posted to has an entry for its type, the connected function
    is called once ([handler] does not [Skip] the event, so the search of the
    table stops at the first entry); this module connects no handler for its
    event type on any other object, so without such an entry [handler] is not
    called.  An exception that leaves a handler is reported by the loop,
    which goes on. *)
Definition dispatch (i : nat) (σ : state) : option state :=
  match pending σ !! i with
  | None => None
  | Some (dest, evt) =>
      let σ1 := set_pending (delete i (pending σ)) σ in
      match heap σ1 !! dest with
      | Some (OEvtHandler h) =>
          if connected (_EVT_INVOKE_METHOD σ1) h
          then Some (handler evt σ1).2 else Some σ1
      | _ => Some σ1
      end
  end.

(** ** anythread: the function [invoker] *)

Definition marker : string := "_AnyThread__connected".

Definition type_name (σ : state) (v : val) : string :=
  match v with
  | VNone => "NoneType"
  | VBool _ => "bool"
  | VInt _ => "int"
  | VStr _ => "str"
  | VTuple _ => "tuple"
  | VExc c _ => class_name c
  | VObj l =>
      match heap σ !! l with
      | Some (OEventWithData _) => "EventWithData"
      | _ => "object"
      end
  end.

(** [hasattr(self, name)], for a name that only instance attributes of a wx
    object can have *)
Definition hasattr (self : val) (name : string) (σ : state) : bool :=
  match self with
  | VObj l =>
      match heap σ !! l with
      | Some (OEvtHandler h) => bool_decide (is_Some (attrs h !! name))
      | _ => false
      end
  | _ => false
  end.

Definition on_EvtHandler (self : val) (name : string)
    (upd : EvtHandler → EvtHandler) : M unit :=
  λ σ,
    let err := (Raise AttributeError
                  [VStr ("'" ++ type_name σ self ++
                         "' object has no attribute '" ++ name ++ "'")]
                  ["invoker"], σ) in
    match self with
    | VObj l =>
        match heap σ !! l with
        | Some (OEvtHandler h) =>
            (Ret tt, set_heap (<[l := OEvtHandler (upd h)]> (heap σ)) σ)
        | _ => err
        end
    | _ => err
    end.

(** Modelled from the spec: [self.Connect(id, lastId, eventType, handler)],
    the toolkit's primitive that registers a handler for an event type on an
    object; wx is not part of the source.  It adds an entry at the head of
    the dynamic event table of the object. *)
Definition Connect (self : val) (id lastId eventType : Z) : M unit :=
  on_EvtHandler self "Connect"
    (λ h, mk_EvtHandler (attrs h) ((id, lastId, eventType) :: table h)).

(** [self._AnyThread__connected = True] *)
Definition set_marker (self : val) : M unit :=
  on_EvtHandler self marker
    (λ h, mk_EvtHandler (<[marker := VBool true]> (attrs h)) (table h)).

(** The control point of a thread inside one call of [invoker]: the statement
    it executes next.  A thread switch can happen between any two. *)
Inductive frame :=
| AtCall                                   (* if wx.IsMainThread(): *)
| AtSelf                                   (* self = args[0] *)
| AtHasattr (self : val)                   (* if not hasattr(self, ...): *)
| AtConnect (self : val)                   (* self.Connect(...) *)
| AtSetattr (self : val)                   (* self._AnyThread__connected = True *)
| AtConstruct                              (* evt = MethodInvocationEvent(...) *)
| AtPost (evt : MethodInvocationEvent)     (* wx.PostEvent(self.args[0], self) *)
| AtWait (evt : MethodInvocationEvent)     (* self.event.wait() *)
| AtRead (evt : MethodInvocationEvent)     (* try: return self.event.result ... *)
| Finished (o : outcome val).              (* the call has returned or raised *)

(** A thread calling [invoker] with [args] and [kwds], for the decorated
    [func]. *)
Record thread := mk_thread {
  IsMainThread : bool;
  t_func : callable;
  t_args : list val;
  t_kwds : gmap string val;
  pc : frame
}.

Definition goto (t : thread) (f : frame) : thread :=
  mk_thread (IsMainThread t) (t_func t) (t_args t) (t_kwds t) f.

(** The next control point after a statement: the continuation after a normal
    end, the end of the call after an exception. *)
Definition advance {A} (t : thread) (r : outcome A * state) (next : A → frame)
    : option (thread * state) :=
  match r with
  | (Ret a, σ') => Some (goto t (next a), σ')
  | (Raise c a tb, σ') => Some (goto t (Finished (Raise c a tb)), σ')
  end.

(** One statement of [invoker] (and of [invoke], which it calls last).
    [None]: the thread cannot move, because its call has ended or because it
    is blocked in [wait]. *)
Definition invoker_step (t : thread) (σ : state) : option (thread * state) :=
  match pc t with
  | AtCall =>
      if IsMainThread t
      then advance t (call (t_func t) (t_args t) (t_kwds t) σ)
             (λ v, Finished (Ret v))
      else Some (goto t AtSelf, σ)
  | AtSelf => advance t (index (t_args t) 0 "invoker" σ) AtHasattr
  | AtHasattr self =>
      if hasattr self marker σ
      then Some (goto t AtConstruct, σ)
      else Some (goto t (AtConnect self), σ)
  | AtConnect self =>
      advance t (Connect self (-1) (-1) (_EVT_INVOKE_METHOD σ) σ)
        (λ _, AtSetattr self)
  | AtSetattr self => advance t (set_marker self σ) (λ _, AtConstruct)
  | AtConstruct =>
      advance t (MethodInvocationEvent_init (t_func t) (t_args t) (t_kwds t) σ)
        AtPost
  | AtPost evt => advance t (invoke_post evt σ) (λ _, AtWait evt)
  | AtWait evt =>
      if is_set (event evt) σ then Some (goto t (AtRead evt), σ) else None
  | AtRead evt => advance t (invoke_read evt σ) (λ v, Finished (Ret v))
  | Finished _ => None
  end.

(** ** Threads running together *)

(** The threads that are inside a call of [invoker], and the shared state. *)
Record system := mk_system {
  threads : list thread;
  st : state
}.

(** One step of the program: a thread executes its next statement, or the
    event loop of the owner thread dispatches a pending event. *)
Inductive step : system → system → Prop :=
| step_thread ts σ i t t' σ' :
    ts !! i = Some t →
    invoker_step t σ = Some (t', σ') →
    step (mk_system ts σ) (mk_system (<[i := t']> ts) σ')
| step_loop ts σ i σ' :
    dispatch i σ = Some σ' →
    step (mk_system ts σ) (mk_system ts σ').

(** Schedules: who moves next. *)
Inductive choice :=
| Thread (i : nat)
| Loop (i : nat).

Definition sched_step (c : choice) (s : system) : option system :=
  match c with
  | Thread i =>
      match threads s !! i with
      | Some t =>
          match invoker_step t (st s) with
          | Some (t', σ') => Some (mk_system (<[i := t']> (threads s)) σ')
          | None => None
          end
      | None => None
      end
  | Loop i =>
      match dispatch i (st s) with
      | Some σ' => Some (mk_system (threads s) σ')
      | None => None
      end
  end.

Fixpoint run (cs : list choice) (s : system) : option system :=
  match cs with
  | [] => Some s
  | c :: cs' =>
      match sched_step c s with
      | Some s' => run cs' s'
      | None => None
      end
  end.

(** A system of one calling thread: the thread moves while it can, the loop
    takes the first pending event otherwise. *)
Definition solo_next (s : system) : option system :=
  match sched_step (Thread 0) s with
  | Some s' => Some s'
  | None => sched_step (Loop 0) s
  end.

Fixpoint solo_run (n : nat) (s : system) : option system :=
  match n with
  | 0 => Some s
  | S n' =>
      match solo_next s with
      | Some s' => solo_run n' s'
      | None => None
      end
  end.

(** The statements of a whole call of [invoker] on the main thread. *)
Definition invoker_main (f : callable) (a : list val) (k : gmap string val)
    (σ : state) : option (thread * state) :=
  invoker_step (mk_thread true f a k AtCall) σ.

(** ** Well-formed states *)

(** The marker is only ever set after [Connect]. *)
Definition wired (σ : state) (h : EvtHandler) : Prop :=
  is_Some (attrs h !! marker) → connected (_EVT_INVOKE_METHOD σ) h = true.

Definition is_EventWithData (σ : state) (l : loc) : Prop :=
  ∃ e, heap σ !! l = Some (OEventWithData e).

(** The event a thread holds, once it has constructed one. *)
Definition held (t : thread) : option MethodInvocationEvent :=
  match pc t with
  | AtPost evt | AtWait evt | AtRead evt => Some evt
  | _ => None
  end.

(** The number of [Connect] calls made on an object so far. *)
Definition Connect_count (σ : state) (l : loc) : nat :=
  match heap σ !! l with
  | Some (OEvtHandler h) => length (table h)
  | _ => 0
  end.

End Model.

Arguments state : clear implicits.
Arguments system : clear implicits.
Arguments thread : clear implicits.
Arguments callable : clear implicits.
Arguments MethodInvocationEvent : clear implicits.

(** ** Derived definitions *)

(** What [process] does, in closed form: the callee runs once on the
    program's state, its outcome is written into the event's
    [EventWithData], and the flag is set. *)
Definition record_outcome (o : outcome val) (e : EventWithData) : EventWithData :=
  match o with
  | Ret v =>
      mk_EventWithData (threading_Event_set (_event e)) (Some v)
        (exception e) (traceback e)
  | Raise c a tb =>
      mk_EventWithData (threading_Event_set (_event e)) (result e)
        (Some (c, a)) (Some (Some tb))
  end.

(** ** Example programs *)

(** [def add(self, x, y): return x + y] *)
Definition add : callable unit :=
  λ a k w,
    match a with
    | [_; VInt x; VInt y] => (Ret (VInt (x + y)), w)
    | _ => (Raise TypeError [VStr "add() got unexpected arguments"] ["add"], w)
    end.

(** [def fail(self): raise ValueError("bad")] *)
Definition fail : callable unit :=
  λ a k w, (Raise ValueError [VStr "bad"] ["fail"], w).

(** [def lookup(self): return {}["x"]], which raises [KeyError('x')] *)
Definition lookup_x : callable unit :=
  λ a k w, (Raise KeyError [VStr "x"] ["lookup"], w).

(** A state with one wx object, at address 1, not yet connected. *)
Definition one_window : state unit :=
  mk_state 10042 {[ 1%positive := OEvtHandler (mk_EvtHandler ∅ []) ]} [] tt.

(** A thread other than the main thread calling the decorated [f]. *)
Definition worker {W} (f : callable W) (a : list val) : thread W :=
  mk_thread false f a ∅ AtCall.


(** The outcome the caller of a marshalled call receives when the callee
    ended with [o]: the value returned, or a new instance of the class of the
    exception, built from the exception (see [construct_same_type]). *)
Definition marshalled (o : outcome val) : outcome val :=
  match o with
  | Ret v => Ret v
  | Raise c a tb => Raise c [VExc c a] tb
  end.

(** The state of the only thread of a system. *)
Definition solo_pc {W} (s : system W) : option frame :=
  pc <$> threads s !! 0.

(** A run of [n] steps of a system of one thread in which, at every state
    before the last, the call has not ended and the step taken is the only
    step there is. *)
Inductive solo_path {W} : nat → system W → system W → Prop :=
| solo_path_end s : solo_path 0 s s
| solo_path_step n s s' sf :
    (∀ o, solo_pc s ≠ Some (Finished o)) →
    (∀ s'', step s s'' → s'' = s') →
    solo_next s = Some s' →
    solo_path n s' sf →
    solo_path (S n) s sf.

(** Two threads calling the decorated [add] on the same, not yet connected,
    object. *)
Definition two_callers : system unit :=
  mk_system
    [worker add [VObj 1%positive; VInt 2; VInt 3];
     worker add [VObj 1%positive; VInt 20; VInt 30]]
    one_window.

(** A schedule in which both threads evaluate [hasattr] before either has
    set the marker; both calls then run to their end. *)
Definition race : list choice :=
  [ Thread 0; Thread 0; Thread 0;      (* thread 0: hasattr(...) is False *)
    Thread 1; Thread 1; Thread 1;      (* thread 1: hasattr(...) is False *)
    Thread 0; Thread 0;                (* thread 0: Connect, marker *)
    Thread 1; Thread 1;                (* thread 1: Connect, marker *)
    Thread 0; Thread 0;                (* thread 0: new event, PostEvent *)
    Thread 1; Thread 1;                (* thread 1: new event, PostEvent *)
    Loop 0; Loop 0;                    (* the loop handles both events *)
    Thread 0; Thread 0;                (* thread 0: wait returns, result *)
    Thread 1; Thread 1 ].              (* thread 1: wait returns, result *)

(** The same two calls one after the other. *)
Definition in_turn : list choice :=
  [ Thread 0; Thread 0; Thread 0; Thread 0; Thread 0; Thread 0; Thread 0;
    Loop 0; Thread 0; Thread 0;
    Thread 1; Thread 1; Thread 1; Thread 1; Thread 1;
    Loop 0; Thread 1; Thread 1 ].

(** ** Invariants of concurrent calls *)

Definition is_EvtHandler {W} (σ : state W) (l : loc) : Prop :=
  ∃ h, heap σ !! l = Some (OEvtHandler h).

(** The event was built by this thread's call: it carries the thread's
    callable and arguments. *)
Definition own {W} (t : thread W) (evt : MethodInvocationEvent W) : Prop :=
  evt = mk_MethodInvocationEvent (t_func t) (t_args t) (t_kwds t) (event evt).

(** The outcome of the thread's callable on its arguments, run in [w]. *)
Definition out {W} (t : thread W) (w : W) : outcome val :=
  (t_func t (t_args t) (t_kwds t) w).1.

Definition not_pending {W} (σ : state W) (e : loc) : Prop :=
  ∀ x, x ∈ pending σ → event x.2 ≠ e.

(** The signal is as [__init__] left it. *)
Definition fresh_signal {W} (σ : state W) (e : loc) : Prop :=
  heap σ !! e = Some (OEventWithData EventWithData_new).

(** [process] has run, once, for the event of this thread. *)
Definition signalled {W} (σ : state W) (t : thread W) (e : loc) : Prop :=
  ∃ w, heap σ !! e =
         Some (OEventWithData (record_outcome (out t w) EventWithData_new)) ∧
       not_pending σ e.

(** What holds of a calling thread at each control point. *)
Definition thread_ok {W} (σ : state W) (t : thread W) : Prop :=
  IsMainThread t = false ∧
  (∃ l, t_args t !! 0 = Some (VObj l) ∧ is_EvtHandler σ l) ∧
  match pc t with
  | AtCall | AtSelf | AtConstruct => True
  | AtHasattr v | AtConnect v | AtSetattr v => t_args t !! 0 = Some v
  | AtPost evt =>
      own t evt ∧ fresh_signal σ (event evt) ∧ not_pending σ (event evt)
  | AtWait evt =>
      own t evt ∧ (fresh_signal σ (event evt) ∨ signalled σ t (event evt))
  | AtRead evt => own t evt ∧ signalled σ t (event evt)
  | Finished o => ∃ w, o = marshalled (out t w)
  end.

Record call_invariant {W} (s : system W) : Prop := mk_call_invariant {
  inv_threads : ∀ i t, threads s !! i = Some t → thread_ok (st s) t;
  inv_distinct : ∀ i j ti tj ei ej,
    i ≠ j →
    threads s !! i = Some ti → threads s !! j = Some tj →
    held ti = Some ei → held tj = Some ej →
    event ei ≠ event ej;
  inv_pending : ∀ x,
    x ∈ pending (st s) →
    fresh_signal (st s) (event x.2) ∧
    ∃ i t, threads s !! i = Some t ∧ pc t = AtWait x.2;
  inv_nodup : NoDup ((λ x, event x.2) <$> pending (st s))
}.

(** The threads of a system at the start of their calls: none is the main
    thread and each calls a method of an object of the GUI. *)
Definition calling {W} (s : system W) : Prop :=
  pending (st s) = [] ∧
  ∀ t, t ∈ threads s →
    IsMainThread t = false ∧ pc t = AtCall ∧
    ∃ l, t_args t !! 0 = Some (VObj l) ∧ is_EvtHandler (st s) l.

(** The event of a call of [add(obj, 2, 3)] and of a call of [fail(obj)],
    with their [EventWithData] at address 2, and states in which this object
    is as [__init__] left it. *)
Definition add_event : MethodInvocationEvent unit :=
  mk_MethodInvocationEvent add [VObj 1%positive; VInt 2; VInt 3] ∅ 2%positive.

Definition fail_event : MethodInvocationEvent unit :=
  mk_MethodInvocationEvent fail [VObj 1%positive] ∅ 2%positive.

Definition posted : state unit :=
  mk_state 10042
    (<[ 2%positive := OEventWithData EventWithData_new ]>
       {[ 1%positive := OEvtHandler (mk_EvtHandler ∅ []) ]})
    [] tt.

(** A stored failure, [ValueError('bad')] raised in [fail]. *)
Definition failed_signal : EventWithData :=
  mk_EventWithData (mk_threading_Event true 1) None
    (Some (ValueError, [VStr "bad"])) (Some (Some ["fail"])).

(** An [EventWithData] that holds a result and a failure at once. *)
Definition both_signal : EventWithData :=
  mk_EventWithData (mk_threading_Event true 2) (Some (VInt 7))
    (Some (ValueError, [VStr "bad"])) (Some (Some ["fail"])).

Definition both : state unit :=
  mk_state 10042
    (<[ 2%positive := OEventWithData both_signal ]>
       {[ 1%positive := OEvtHandler (mk_EvtHandler ∅ []) ]})
    [] tt.

Definition failed : state unit :=
  mk_state 10042
    (<[ 2%positive := OEventWithData failed_signal ]>
       {[ 1%positive := OEvtHandler (mk_EvtHandler ∅ []) ]})
    [] tt.

(** The thread holds an event whose [EventWithData] is at [e]. *)
Definition holds {W} (t : thread W) (e : loc) : Prop :=
  ∃ evt, held t = Some evt ∧ event evt = e.

(** ** Definitions for the further properties *)

(** The value is not (a reference to) a wx event handler. *)
Definition not_handler {W} (σ : state W) (v : val) : Prop :=
  match v with
  | VObj l =>
      match heap σ !! l with
      | Some (OEvtHandler _) => False
      | _ => True
      end
  | _ => True
  end.

(** Calls of wrapped methods on the object [l] made one after the other from
    threads other than the main thread: each call runs (with the event loop)
    to its end before the next one starts. *)
Inductive calls_in_sequence {W} (l : loc) :
    list (callable W * list val * gmap string val) →
    state W → state W → Prop :=
| calls_done σ : calls_in_sequence l [] σ σ
| calls_next f a k o rest σ σ' σ'' :
    a !! 0 = Some (VObj l) →
    rtc step (mk_system [mk_thread false f a k AtCall] σ)
             (mk_system [mk_thread false f a k (Finished o)] σ') →
    calls_in_sequence l rest σ' σ'' →
    calls_in_sequence l ((f, a, k) :: rest) σ σ''.

(** A method that fails the first time it is called and returns 7 from then
    on; the program's state records whether it has been called. *)
Definition flaky : callable bool :=
  λ a k called,
    if called then (Ret (VInt 7), true)
    else (Raise RuntimeError [VStr "not ready"] ["flaky"], true).

Definition flaky_event : MethodInvocationEvent bool :=
  mk_MethodInvocationEvent flaky [VObj 1%positive] ∅ 2%positive.

Definition flaky_posted : state bool :=
  mk_state 10042
    (<[ 2%positive := OEventWithData EventWithData_new ]>
       {[ 1%positive := OEvtHandler (mk_EvtHandler ∅ []) ]})
    [] false.

(** A caller of [add(obj, 2, 3)] blocked in [wait]: its object is connected
    and marked, its event is posted and its [EventWithData] is as
    [__init__] left it. *)
Definition waiting : system unit :=
  mk_system
    [mk_thread false add [VObj 1%positive; VInt 2; VInt 3] ∅ (AtWait add_event)]
    (mk_state 10042
       (<[ 2%positive := OEventWithData EventWithData_new ]>
          {[ 1%positive :=
               OEvtHandler
                 (mk_EvtHandler {[ marker := VBool true ]}
                    [((-1)%Z, (-1)%Z, 10042%Z)]) ]})
       [(1%positive, add_event)] tt).

(** ** Definitions for progress *)

(** The control points at which the thread relies on a handler being
    connected on its object. *)
Definition needs_handler {W} (p : @frame W) : bool :=
  match p with
  | AtSetattr _ | AtConstruct | AtPost _ | AtWait _ => true
  | _ => false
  end.

(** The number of steps (of the thread or, while it is blocked, of the loop
    for its event) that a call still needs at most. *)
Definition remaining {W} (t : thread W) (σ : state W) : nat :=
  match pc t with
  | AtCall => 10
  | AtSelf => 9
  | AtHasattr _ => 8
  | AtConnect _ => 7
  | AtSetattr _ => 6
  | AtConstruct => 5
  | AtPost _ => 4
  | AtWait evt => if is_set (event evt) σ then 2 else 3
  | AtRead _ => 1
  | Finished _ => 0
  end.

Record live_invariant {W} (s : system W) : Prop := mk_live_invariant {
  live_calls : call_invariant s;
  live_target : ∀ i t l h,
    threads s !! i = Some t →
    t_args t !! 0 = Some (VObj l) →
    heap (st s) !! l = Some (OEvtHandler h) →
    wired (st s) h ∧
    (needs_handler (pc t) = true →
     connected (_EVT_INVOKE_METHOD (st s)) h = true);
  live_posted : ∀ i t evt,
    threads s !! i = Some t →
    pc t = AtWait evt →
    fresh_signal (st s) (event evt) →
    ∃ l, t_args t !! 0 = Some (VObj l) ∧ (l, evt) ∈ pending (st s)
}.
(** ** Properties of the monad and of attribute access *)

Section Properties.

Context {W : Type}.
Implicit Types (σ : state W) (evt : MethodInvocationEvent W) (t : thread W)
  (f : callable W) (e : EventWithData) (l : loc).

Lemma getattr_EventWithData {A} σ l e name (get : EventWithData → option A) fn :
  heap σ !! l = Some (OEventWithData e) →
  getattr l name get fn σ =
    match get e with
    | Some a => (Ret a, σ)
    | None => (Raise AttributeError (no_attribute name) [fn], σ)
    end.
Proof. intros H. unfold getattr. by rewrite H. Qed.

Lemma setattr_EventWithData σ l e name upd fn :
  heap σ !! l = Some (OEventWithData e) →
  setattr l name upd fn σ =
    (Ret tt, set_heap (<[l := OEventWithData (upd e)]> (heap σ)) σ).
Proof. intros H. unfold setattr. by rewrite H. Qed.

Lemma heap_set_heap h σ : heap (set_heap h σ) = h.
Proof. reflexivity. Qed.

Lemma heap_set_world w σ : heap (set_world w σ) = heap σ.
Proof. reflexivity. Qed.

Lemma heap_set_pending q σ : heap (set_pending q σ) = heap σ.
Proof. reflexivity. Qed.

Lemma set_heap_set_heap h h' σ : set_heap h (set_heap h' σ) = set_heap h σ.
Proof. reflexivity. Qed.

Lemma process_EventWithData evt σ e :
  heap σ !! event evt = Some (OEventWithData e) →
  process evt σ =
    (Ret VNone,
     set_heap
       (<[event evt :=
            OEventWithData
              (record_outcome (func evt (args evt) (kwds evt) (world σ)).1 e)]>
          (heap σ))
       (set_world (func evt (args evt) (kwds evt) (world σ)).2 σ)).
Proof.
  intros H. unfold process, try_except_all, bind, call.
  destruct (func evt (args evt) (kwds evt) (world σ)) as [[v|c a tb] w]; simpl.
  - rewrite (setattr_EventWithData _ _ e) by done.
    unfold EventWithData_set.
    erewrite setattr_EventWithData by (simpl; apply lookup_insert_eq).
    simpl. unfold ret, set_heap; simpl. by rewrite insert_insert_eq.
  - unfold set_exc_info. rewrite (setattr_EventWithData _ _ e) by done.
    unfold EventWithData_set.
    erewrite setattr_EventWithData by (simpl; apply lookup_insert_eq).
    simpl. unfold ret, set_heap; simpl. by rewrite insert_insert_eq.
Qed.

End Properties.

(** ** The two halves of a call, taken alone *)

Section Local.

Context {W : Type}.
Implicit Types (σ : state W) (evt : MethodInvocationEvent W) (t : thread W)
  (f : callable W) (e : EventWithData) (l : loc).

Lemma set_heap_id σ : set_heap (heap σ) σ = σ.
Proof. by destruct σ. Qed.

Lemma reraise_stored_EventWithData evt σ e tb :
  heap σ !! event evt = Some (OEventWithData e) →
  traceback e = Some tb →
  reraise_stored evt σ =
    (match exception e with
     | Some (c, a) => Raise c [VExc c a] (default [] tb)
     | None => Raise TypeError [VStr "NoneType takes no arguments"] ["invoke"]
     end,
     set_heap
       (<[event evt :=
            OEventWithData
              (mk_EventWithData (_event e) (result e) (exception e) None)]>
          (heap σ)) σ).
Proof.
  intros H Htb. unfold reraise_stored, bind.
  rewrite (getattr_EventWithData _ _ e) by done. simpl.
  rewrite (getattr_EventWithData _ _ e) by done. rewrite Htb.
  rewrite (setattr_EventWithData _ _ e) by done.
  by destruct (exception e) as [[c a]|].
Qed.

Lemma reraise_stored_deleted evt σ e :
  heap σ !! event evt = Some (OEventWithData e) →
  traceback e = None →
  reraise_stored evt σ =
    (Raise AttributeError (no_attribute "traceback") ["invoke"], σ).
Proof.
  intros H Htb. unfold reraise_stored, bind.
  rewrite (getattr_EventWithData _ _ e) by done. simpl.
  rewrite (getattr_EventWithData _ _ e) by done. by rewrite Htb.
Qed.

Lemma invoke_read_result evt σ e v :
  heap σ !! event evt = Some (OEventWithData e) →
  result e = Some v →
  invoke_read evt σ = (Ret v, σ).
Proof.
  intros H Hr. unfold invoke_read, try_except.
  rewrite (getattr_EventWithData _ _ e) by done. by rewrite Hr.
Qed.

Lemma invoke_read_no_result evt σ e :
  heap σ !! event evt = Some (OEventWithData e) →
  result e = None →
  invoke_read evt σ = reraise_stored evt σ.
Proof.
  intros H Hr. unfold invoke_read, try_except.
  rewrite (getattr_EventWithData _ _ e) by done. rewrite Hr.
  by rewrite decide_True.
Qed.

(** C3. On the main thread the wrapper is the function itself: one step of
    [invoker] ends the call with exactly the outcome of [f] on the same
    arguments (the value it returns or the exception it raises), the
    program's state is changed by [f] alone, and neither the heap nor the
    queue of posted events is touched. *)
Theorem invoker_main_thread_is_direct_call f a k σ :
  ∃ t' σ',
    invoker_main f a k σ = Some (t', σ') ∧
    (pc t', world σ') = (Finished (f a k (world σ)).1, (f a k (world σ)).2) ∧
    heap σ' = heap σ ∧ pending σ' = pending σ ∧
    invoker_step t' σ' = None.
Proof.
  unfold invoker_main, invoker_step, call. simpl.
  destruct (f a k (world σ)) as [[v|c x tb] w]; simpl; eauto 10.
Qed.

(** C4. Whatever the callable does, [process] returns normally (no exception
    leaves it), and it calls [set()] on the event's [EventWithData] exactly
    once: afterwards the flag is set and the count of [set()] calls is one
    more than before. *)
Theorem process_never_raises_and_sets_once evt σ e :
  heap σ !! event evt = Some (OEventWithData e) →
  ∃ σ' e',
    process evt σ = (Ret VNone, σ') ∧
    heap σ' !! event evt = Some (OEventWithData e') ∧
    flag (_event e') = true ∧
    set_calls (_event e') = S (set_calls (_event e)) ∧
    is_set (event evt) σ' = true.
Proof.
  intros H. rewrite (process_EventWithData _ _ e) by done.
  eexists _, _. split; [reflexivity|]. unfold is_set. simpl.
  rewrite lookup_insert_eq. split; [reflexivity|].
  by destruct (func evt (args evt) (kwds evt) (world σ)) as [[v|c a tb] w].
Qed.

(** C5. After [process] has run once on an event whose [EventWithData] is as
    [__init__] left it, exactly one outcome is stored: if the callable
    returned [v], [result] is [v] and [exception] and [traceback] are still
    [None]; if it raised, [exception] and [traceback] hold the exception and
    its traceback and there is no [result] attribute. *)
Theorem process_stores_one_outcome evt σ :
  heap σ !! event evt = Some (OEventWithData EventWithData_new) →
  ∃ σ' e',
    process evt σ = (Ret VNone, σ') ∧
    heap σ' !! event evt = Some (OEventWithData e') ∧
    match (func evt (args evt) (kwds evt) (world σ)).1 with
    | Ret v =>
        result e' = Some v ∧ exception e' = None ∧ traceback e' = Some None
    | Raise c a tb =>
        result e' = None ∧ exception e' = Some (c, a) ∧
        traceback e' = Some (Some tb)
    end.
Proof.
  intros H. rewrite (process_EventWithData _ _ EventWithData_new) by done.
  eexists _, _. split; [reflexivity|]. simpl. rewrite lookup_insert_eq.
  split; [reflexivity|].
  by destruct (func evt (args evt) (kwds evt) (world σ)) as [[v|c a tb] w].
Qed.

(** C6. Reading the outcome prefers the result.  When the [result]
    attribute exists it is returned and nothing is changed, whatever
    [exception] and [traceback] hold (a failure stored beside it is not
    looked at).  Only when there is no [result] attribute is the failure
    consulted: without a [traceback] attribute the read fails with
    [AttributeError]; otherwise [traceback] is deleted and a new instance of
    the class of the stored exception is raised with the stored traceback
    ([TypeError] if [exception] is still [None]). *)
Theorem invoke_read_prefers_result evt σ e :
  heap σ !! event evt = Some (OEventWithData e) →
  match result e with
  | Some v => invoke_read evt σ = (Ret v, σ)
  | None =>
      match traceback e with
      | None =>
          invoke_read evt σ =
            (Raise AttributeError (no_attribute "traceback") ["invoke"], σ)
      | Some tb =>
          invoke_read evt σ =
            (match exception e with
             | Some (c, a) => Raise c [VExc c a] (default [] tb)
             | None =>
                 Raise TypeError [VStr "NoneType takes no arguments"] ["invoke"]
             end,
             set_heap
               (<[event evt :=
                    OEventWithData
                      (mk_EventWithData (_event e) None (exception e) None)]>
                  (heap σ)) σ)
      end
  end.
Proof.
  intros H. destruct (result e) as [v|] eqn:Hr.
  - by eapply invoke_read_result.
  - rewrite (invoke_read_no_result _ _ e) by done.
    destruct (traceback e) as [tb|] eqn:Htb.
    + rewrite (reraise_stored_EventWithData _ _ e tb) by done.
      by rewrite Hr.
    + by eapply reraise_stored_deleted.
Qed.

(** C9. With an empty argument tuple a thread other than the main thread
    gets [IndexError] from [args[0]]: the call ends after the test of the
    thread and the subscript, and these two statements leave the state as it
    is (no [Connect], no new event, nothing posted), whatever other threads
    do in between. *)
Theorem invoker_empty_args_IndexError f k σ σ' :
  let t := mk_thread false f [] k AtCall in
  invoker_step t σ = Some (goto t AtSelf, σ) ∧
  invoker_step (goto t AtSelf) σ' =
    Some (goto t (Finished
                    (Raise IndexError [VStr "tuple index out of range"]
                       ["invoker"])), σ') ∧
  run [Thread 0; Thread 0] (mk_system [t] σ) =
    Some (mk_system
            [goto t (Finished
                       (Raise IndexError [VStr "tuple index out of range"]
                          ["invoker"]))] σ).
Proof. done. Qed.

(** C10. Consuming a failure deletes [traceback] and keeps [exception]: when
    there is no result and a failure is stored, [invoke] raises a new
    instance of the exception's class and leaves the [EventWithData] without
    the [traceback] attribute, with [exception] unchanged; reading the same
    outcome again fails with [AttributeError] on [traceback]. *)
Theorem invoke_read_failure_only_once evt σ e c a tb :
  heap σ !! event evt = Some (OEventWithData e) →
  result e = None →
  exception e = Some (c, a) →
  traceback e = Some tb →
  ∃ σ' e',
    invoke_read evt σ = (Raise c [VExc c a] (default [] tb), σ') ∧
    heap σ' !! event evt = Some (OEventWithData e') ∧
    traceback e' = None ∧ exception e' = Some (c, a) ∧ result e' = None ∧
    invoke_read evt σ' =
      (Raise AttributeError (no_attribute "traceback") ["invoke"], σ').
Proof.
  intros H Hr He Htb.
  rewrite (invoke_read_no_result _ _ e) by done.
  rewrite (reraise_stored_EventWithData _ _ e tb) by done. rewrite He.
  eexists _, _. split; [reflexivity|]. simpl. rewrite lookup_insert_eq.
  repeat (split; [done|]).
  erewrite invoke_read_no_result; [|simpl; apply lookup_insert_eq|done].
  erewrite reraise_stored_deleted; [done|simpl; apply lookup_insert_eq|done].
Qed.

End Local.

(** ** One calling thread and the event loop *)

Section Solo.

Context {W : Type}.
Implicit Types (σ : state W) (evt : MethodInvocationEvent W) (t : thread W)
  (f : callable W) (e : EventWithData) (l : loc) (s : system W).

Lemma sched_step_sound c s s' : sched_step c s = Some s' → step s s'.
Proof.
  destruct s as [ts σ], c as [i|i]; simpl.
  - destruct (ts !! i) as [t|] eqn:Ht; [|done].
    destruct (invoker_step t σ) as [[t' σ']|] eqn:Hs; [|done].
    intros [= <-]. by eapply step_thread.
  - destruct (dispatch i σ) as [σ'|] eqn:Hd; [|done].
    intros [= <-]. by eapply step_loop.
Qed.

Lemma solo_next_sound s s' : solo_next s = Some s' → step s s'.
Proof.
  unfold solo_next. destruct (sched_step (Thread 0) s) eqn:H1.
  - intros [= <-]. by eapply sched_step_sound.
  - apply sched_step_sound.
Qed.

Lemma dispatch_empty i σ : pending σ = [] → dispatch i σ = None.
Proof. intros H. unfold dispatch. by rewrite H. Qed.

(** While nothing is pending only the thread can move. *)
Lemma solo_thread_step t σ t' σ' :
  pending σ = [] →
  invoker_step t σ = Some (t', σ') →
  (∀ s'', step (mk_system [t] σ) s'' → s'' = mk_system [t'] σ') ∧
  solo_next (mk_system [t] σ) = Some (mk_system [t'] σ').
Proof.
  intros Hp Hs. split.
  - intros s'' Hstep. inversion Hstep as [ts σ0 i t0 t1 σ1 Hi Hs1|ts σ0 i σ1 Hd]; subst.
    + destruct i as [|i]; [|done]. simpl in Hi. injection Hi as <-.
      rewrite Hs in Hs1. by injection Hs1 as <- <-.
    + by rewrite dispatch_empty in Hd.
  - unfold solo_next. simpl. by rewrite Hs.
Qed.

(** While the thread is blocked and one event is pending only the loop can
    move. *)
Lemma solo_loop_step t σ x σ' :
  pending σ = [x] →
  invoker_step t σ = None →
  dispatch 0 σ = Some σ' →
  (∀ s'', step (mk_system [t] σ) s'' → s'' = mk_system [t] σ') ∧
  solo_next (mk_system [t] σ) = Some (mk_system [t] σ').
Proof.
  intros Hp Hs Hd. split.
  - intros s'' Hstep. inversion Hstep as [ts σ0 i t0 t1 σ1 Hi Hs1|ts σ0 i σ1 Hd1]; subst.
    + destruct i as [|i]; [|done]. simpl in Hi. injection Hi as <-.
      by rewrite Hs in Hs1.
    + destruct i as [|i].
      * rewrite Hd in Hd1. by injection Hd1 as <-.
      * unfold dispatch in Hd1. by rewrite Hp in Hd1.
  - unfold solo_next. simpl. rewrite Hs. simpl. by rewrite Hd.
Qed.

Lemma solo_path_app n m s1 s2 s3 :
  solo_path n s1 s2 → solo_path m s2 s3 → solo_path (n + m) s1 s3.
Proof.
  induction 1 as [|n s s' sf Hun Hdet Hnext _ IH]; intros H2; [done|].
  simpl. eapply solo_path_step; eauto.
Qed.

Lemma solo_path_rtc n s sf : solo_path n s sf → rtc step s sf.
Proof.
  induction 1 as [|n s s' sf Hun Hdet Hnext _ IH]; [done|].
  eapply rtc_l; [|done]. by apply solo_next_sound.
Qed.

(** Every state reachable from the start of such a run lies on it, provided
    the run ends in a state without successor. *)
Lemma solo_path_reachable n s0 sf s :
  solo_path n s0 sf →
  (∀ s', ¬ step sf s') →
  rtc step s0 s →
  ∃ m, solo_path m s sf.
Proof.
  intros Hpath Hterm Hrtc. revert n Hpath.
  induction Hrtc as [s|s s1 s2 Hstep _ IH]; intros n Hpath; [by eauto|].
  destruct Hpath as [s|n s s' sf Hun Hdet Hnext Hrest].
  - by destruct (Hterm _ Hstep).
  - apply Hdet in Hstep as ->. by eapply IH.
Qed.

(** A state of the run in which the call has ended is the last one. *)
Lemma solo_path_finished m s sf o :
  solo_path m s sf → solo_pc s = Some (Finished o) → s = sf.
Proof.
  intros Hpath Hpc. destruct Hpath as [s|n s s' sf Hun Hdet Hnext Hrest]; [done|].
  by destruct (Hun o).
Qed.

Lemma solo_path_thread n t σ t' σ' sf :
  pending σ = [] →
  invoker_step t σ = Some (t', σ') →
  solo_path n (mk_system [t'] σ') sf →
  solo_path (S n) (mk_system [t] σ) sf.
Proof.
  intros Hp Hs Hrest.
  destruct (solo_thread_step t σ t' σ' Hp Hs) as [Hdet Hnext].
  eapply solo_path_step; [|done..].
  intros o [= Hpc]. unfold invoker_step in Hs. by rewrite Hpc in Hs.
Qed.

Lemma solo_path_loop n t σ x σ' sf evt :
  pc t = AtWait evt →
  pending σ = [x] →
  invoker_step t σ = None →
  dispatch 0 σ = Some σ' →
  solo_path n (mk_system [t] σ') sf →
  solo_path (S n) (mk_system [t] σ) sf.
Proof.
  intros Hpc Hp Hs Hd Hrest.
  destruct (solo_loop_step t σ x σ' Hp Hs Hd) as [Hdet Hnext].
  eapply solo_path_step; [|done..].
  intros o [= Hpc']. by rewrite Hpc in Hpc'.
Qed.

Lemma solo_finished_terminal t σ o :
  pc t = Finished o → pending σ = [] →
  ∀ s', ¬ step (mk_system [t] σ) s'.
Proof.
  intros Hpc Hp s' Hstep.
  inversion Hstep as [ts σ0 i t0 t1 σ1 Hi Hs1|ts σ0 i σ1 Hd]; subst.
  - destruct i as [|i]; [|done]. simpl in Hi. injection Hi as <-.
    unfold invoker_step in Hs1. by rewrite Hpc in Hs1.
  - by rewrite dispatch_empty in Hd.
Qed.

(** *** The statements of [invoker], one by one *)

Lemma fresh_heap_None σ : heap σ !! fresh (dom (heap σ)) = None.
Proof. apply not_elem_of_dom, is_fresh. Qed.

Lemma fresh_heap_ne σ l x : heap σ !! l = Some x → fresh (dom (heap σ)) ≠ l.
Proof. intros H <-. by rewrite fresh_heap_None in H. Qed.

Lemma step_AtHasattr_unmarked f a k σ l h :
  heap σ !! l = Some (OEvtHandler h) →
  attrs h !! marker = None →
  invoker_step (mk_thread false f a k (AtHasattr (VObj l))) σ =
    Some (mk_thread false f a k (AtConnect (VObj l)), σ).
Proof.
  intros Hl Hm. unfold invoker_step, hasattr. simpl. rewrite Hl, Hm.
  by rewrite bool_decide_false by (by intros [? ?]).
Qed.

Lemma step_AtHasattr_marked f a k σ l h :
  heap σ !! l = Some (OEvtHandler h) →
  is_Some (attrs h !! marker) →
  invoker_step (mk_thread false f a k (AtHasattr (VObj l))) σ =
    Some (mk_thread false f a k AtConstruct, σ).
Proof.
  intros Hl Hm. unfold invoker_step, hasattr. simpl. rewrite Hl.
  by rewrite bool_decide_true.
Qed.

Lemma step_AtConnect f a k σ l h :
  heap σ !! l = Some (OEvtHandler h) →
  invoker_step (mk_thread false f a k (AtConnect (VObj l))) σ =
    Some (mk_thread false f a k (AtSetattr (VObj l)),
          set_heap
            (<[l := OEvtHandler
                      (mk_EvtHandler (attrs h)
                         ((-1, -1, _EVT_INVOKE_METHOD σ)%Z :: table h))]>
               (heap σ)) σ).
Proof.
  intros Hl. unfold invoker_step, Connect, on_EvtHandler. simpl. by rewrite Hl.
Qed.

Lemma step_AtSetattr f a k σ l h :
  heap σ !! l = Some (OEvtHandler h) →
  invoker_step (mk_thread false f a k (AtSetattr (VObj l))) σ =
    Some (mk_thread false f a k AtConstruct,
          set_heap
            (<[l := OEvtHandler
                      (mk_EvtHandler (<[marker := VBool true]> (attrs h))
                         (table h))]>
               (heap σ)) σ).
Proof.
  intros Hl. unfold invoker_step, set_marker, on_EvtHandler. simpl.
  by rewrite Hl.
Qed.

Lemma step_AtPost f a k σ l h evt :
  args evt !! 0 = Some (VObj l) →
  heap σ !! l = Some (OEvtHandler h) →
  invoker_step (mk_thread false f a k (AtPost evt)) σ =
    Some (mk_thread false f a k (AtWait evt),
          set_pending (pending σ ++ [(l, evt)]) σ).
Proof.
  intros Ha Hl. unfold invoker_step, invoke_post, bind, index. simpl.
  rewrite Ha. simpl. by rewrite Hl.
Qed.

Lemma step_AtWait_blocked f a k σ evt e :
  heap σ !! event evt = Some (OEventWithData e) →
  flag (_event e) = false →
  invoker_step (mk_thread false f a k (AtWait evt)) σ = None.
Proof.
  intros He Hf. unfold invoker_step, is_set. simpl. by rewrite He, Hf.
Qed.

Lemma step_AtWait_set f a k σ evt e :
  heap σ !! event evt = Some (OEventWithData e) →
  flag (_event e) = true →
  invoker_step (mk_thread false f a k (AtWait evt)) σ =
    Some (mk_thread false f a k (AtRead evt), σ).
Proof.
  intros He Hf. unfold invoker_step, is_set. simpl. by rewrite He, Hf.
Qed.

Lemma connected_cons eventType h x :
  connected eventType (mk_EvtHandler (attrs h) ((x, x, eventType) :: table h)) = true.
Proof. unfold connected. apply bool_decide_eq_true. by left. Qed.

Lemma dispatch_connected σ l h evt e q :
  pending σ = (l, evt) :: q →
  heap σ !! l = Some (OEvtHandler h) →
  connected (_EVT_INVOKE_METHOD σ) h = true →
  heap σ !! event evt = Some (OEventWithData e) →
  dispatch 0 σ =
    Some (process evt (set_pending q σ)).2.
Proof.
  intros Hp Hl Hc He. unfold dispatch. rewrite Hp. simpl.
  rewrite Hl. simpl. by rewrite Hc.
Qed.

(** *** From the construction of the event to the end of the call *)

Lemma solo_from_construct f a k σ l h o w' :
  a !! 0 = Some (VObj l) →
  heap σ !! l = Some (OEvtHandler h) →
  connected (_EVT_INVOKE_METHOD σ) h = true →
  pending σ = [] →
  f a k (world σ) = (o, w') →
  ∃ σ',
    solo_path 5 (mk_system [mk_thread false f a k AtConstruct] σ)
      (mk_system [mk_thread false f a k (Finished (marshalled o))] σ') ∧
    world σ' = w' ∧ pending σ' = [] ∧
    heap σ' !! l = Some (OEvtHandler h) ∧
    _EVT_INVOKE_METHOD σ' = _EVT_INVOKE_METHOD σ.
Proof.
  intros Ha Hl Hc Hp Hf.
  set (e := fresh (dom (heap σ))).
  set (evt := mk_MethodInvocationEvent f a k e).
  assert (Hne : e ≠ l) by by eapply fresh_heap_ne.
  (* evt = MethodInvocationEvent(func, args, kwds) *)
  set (σ1 := set_heap (<[e := OEventWithData EventWithData_new]> (heap σ)) σ).
  assert (H1 : invoker_step (mk_thread false f a k AtConstruct) σ =
               Some (mk_thread false f a k (AtPost evt), σ1)) by done.
  assert (Hl1 : heap σ1 !! l = Some (OEvtHandler h))
    by (simpl; by rewrite lookup_insert_ne).
  assert (He1 : heap σ1 !! e = Some (OEventWithData EventWithData_new))
    by (simpl; by rewrite lookup_insert_eq).
  (* wx.PostEvent(self.args[0], self) *)
  set (σ2 := set_pending [(l, evt)] σ1).
  assert (H2 : invoker_step (mk_thread false f a k (AtPost evt)) σ1 =
               Some (mk_thread false f a k (AtWait evt), σ2)).
  { erewrite step_AtPost by done. unfold σ2. simpl. by rewrite Hp. }
  (* self.event.wait() blocks; the loop runs handler(evt) *)
  assert (H3 : invoker_step (mk_thread false f a k (AtWait evt)) σ2 = None)
    by by eapply step_AtWait_blocked.
  set (σ3 := (process evt (set_pending [] σ2)).2).
  assert (H4 : dispatch 0 σ2 = Some σ3) by by eapply dispatch_connected.
  assert (He3 : heap σ3 !! e =
                Some (OEventWithData (record_outcome o EventWithData_new))).
  { unfold σ3. erewrite process_EventWithData by exact He1. simpl.
    rewrite Hf. simpl. by rewrite lookup_insert_eq. }
  assert (Hl3 : heap σ3 !! l = Some (OEvtHandler h)).
  { unfold σ3. erewrite process_EventWithData by exact He1. simpl.
    rewrite lookup_insert_ne by done. by rewrite lookup_insert_ne. }
  assert (Hw3 : world σ3 = w' ∧ pending σ3 = [] ∧
                _EVT_INVOKE_METHOD σ3 = _EVT_INVOKE_METHOD σ).
  { unfold σ3. erewrite process_EventWithData by exact He1. simpl.
    by rewrite Hf. }
  destruct Hw3 as (Hw3 & Hp3 & Hv3).
  (* wait() returns *)
  assert (H5 : invoker_step (mk_thread false f a k (AtWait evt)) σ3 =
               Some (mk_thread false f a k (AtRead evt), σ3)).
  { eapply step_AtWait_set; [exact He3|]. by destruct o. }
  (* the try statement *)
  assert (H6 : ∃ σ4, invoker_step (mk_thread false f a k (AtRead evt)) σ3 =
                 Some (mk_thread false f a k (Finished (marshalled o)), σ4) ∧
               world σ4 = w' ∧ pending σ4 = [] ∧
               heap σ4 !! l = Some (OEvtHandler h) ∧
               _EVT_INVOKE_METHOD σ4 = _EVT_INVOKE_METHOD σ).
  { unfold invoker_step. simpl. destruct o as [v|c x tb].
    - erewrite invoke_read_result; [|exact He3|done]. simpl. eauto 10.
    - erewrite invoke_read_no_result; [|exact He3|done].
      erewrite reraise_stored_EventWithData; [|exact He3|done]. simpl.
      eexists. split; [reflexivity|]. simpl.
      by rewrite lookup_insert_ne. }
  destruct H6 as (σ4 & H6 & Hw4 & Hp4 & Hl4 & Hv4).
  exists σ4. split; [|done].
  eapply solo_path_thread; [done|exact H1|].
  eapply solo_path_thread; [by simpl|exact H2|].
  eapply solo_path_loop; [done|done|exact H3|exact H4|].
  eapply solo_path_thread; [done|exact H5|].
  eapply solo_path_thread; [done|exact H6|].
  apply solo_path_end.
Qed.

(** *** The whole call *)

Lemma solo_call f a k σ l h o w' :
  a !! 0 = Some (VObj l) →
  heap σ !! l = Some (OEvtHandler h) →
  wired σ h →
  pending σ = [] →
  f a k (world σ) = (o, w') →
  ∃ n σ',
    solo_path n (mk_system [mk_thread false f a k AtCall] σ)
      (mk_system [mk_thread false f a k (Finished (marshalled o))] σ') ∧
    world σ' = w' ∧ pending σ' = [] ∧
    Connect_count σ' l =
      (if bool_decide (is_Some (attrs h !! marker)) then 0 else 1) +
      Connect_count σ l.
Proof.
  intros Ha Hl Hwired Hp Hf.
  assert (H1 : invoker_step (mk_thread false f a k AtCall) σ =
               Some (mk_thread false f a k AtSelf, σ)) by done.
  assert (H2 : invoker_step (mk_thread false f a k AtSelf) σ =
               Some (mk_thread false f a k (AtHasattr (VObj l)), σ)).
  { unfold invoker_step, index. simpl. by rewrite Ha. }
  destruct (attrs h !! marker) as [m|] eqn:Hm.
  - (* already connected *)
    destruct (solo_from_construct f a k σ l h o w') as (σ' & Hpath & Hw & Hp' & Hl' & _);
      [done|done|by apply Hwired|done|done|].
    exists 8, σ'. split; [|split; [done|split; [done|]]].
    + eapply solo_path_thread; [done|exact H1|].
      eapply solo_path_thread; [done|exact H2|].
      eapply solo_path_thread;
        [done|by eapply step_AtHasattr_marked; [|rewrite Hm]|].
      exact Hpath.
    + unfold Connect_count. by rewrite Hl', Hl.
  - (* first call on this object *)
    set (h1 := mk_EvtHandler (attrs h)
                 ((-1, -1, _EVT_INVOKE_METHOD σ)%Z :: table h)).
    set (σ1 := set_heap (<[l := OEvtHandler h1]> (heap σ)) σ).
    set (h2 := mk_EvtHandler (<[marker := VBool true]> (attrs h1)) (table h1)).
    set (σ2 := set_heap (<[l := OEvtHandler h2]> (heap σ1)) σ1).
    assert (Hl1 : heap σ1 !! l = Some (OEvtHandler h1))
      by (simpl; by rewrite lookup_insert_eq).
    assert (Hl2 : heap σ2 !! l = Some (OEvtHandler h2))
      by (simpl; by rewrite lookup_insert_eq).
    destruct (solo_from_construct f a k σ2 l h2 o w') as (σ' & Hpath & Hw & Hp' & Hl' & _);
      [done|done|apply (connected_cons _ h)|done|done|].
    exists 10, σ'. split; [|split; [done|split; [done|]]].
    + eapply solo_path_thread; [done|exact H1|].
      eapply solo_path_thread; [done|exact H2|].
      eapply solo_path_thread; [done|by eapply step_AtHasattr_unmarked|].
      eapply solo_path_thread; [done|by eapply step_AtConnect|].
      eapply solo_path_thread; [done|by eapply (step_AtSetattr _ _ _ σ1)|].
      exact Hpath.
    + unfold Connect_count. by rewrite Hl', Hl.
Qed.

(** Every run of the system of one caller is a prefix of the same run, which
    ends with the marshalled outcome of the callee. *)
Lemma solo_call_all_runs f a k σ l h o w' :
  a !! 0 = Some (VObj l) →
  heap σ !! l = Some (OEvtHandler h) →
  wired σ h →
  pending σ = [] →
  f a k (world σ) = (o, w') →
  ∃ σ',
    world σ' = w' ∧
    rtc step (mk_system [mk_thread false f a k AtCall] σ)
      (mk_system [mk_thread false f a k (Finished (marshalled o))] σ') ∧
    (∀ s, rtc step (mk_system [mk_thread false f a k AtCall] σ) s →
          rtc step s
            (mk_system [mk_thread false f a k (Finished (marshalled o))] σ')) ∧
    (∀ s, ¬ step
            (mk_system [mk_thread false f a k (Finished (marshalled o))] σ') s) ∧
    (∀ s o', rtc step (mk_system [mk_thread false f a k AtCall] σ) s →
             solo_pc s = Some (Finished o') →
             s = mk_system [mk_thread false f a k (Finished (marshalled o))] σ').
Proof.
  intros Ha Hl Hwired Hp Hf.
  destruct (solo_call f a k σ l h o w') as (n & σ' & Hpath & Hw & Hp' & _);
    [done..|].
  assert (Hterm : ∀ s, ¬ step
            (mk_system [mk_thread false f a k (Finished (marshalled o))] σ') s)
    by by eapply solo_finished_terminal.
  exists σ'. split; [done|]. split; [by eapply solo_path_rtc|].
  split; [|split; [done|]].
  - intros s Hs.
    destruct (solo_path_reachable _ _ _ _ Hpath Hterm Hs) as [m Hm].
    by eapply solo_path_rtc.
  - intros s o' Hs Hpc.
    destruct (solo_path_reachable _ _ _ _ Hpath Hterm Hs) as [m Hm].
    by eapply solo_path_finished.
Qed.

(** C1. A thread other than the main thread calls the wrapped [f] on an
    object of the GUI, nothing else being pending, and [f] returns [v] on
    these arguments.  Then the system of the caller and the event loop can
    only run one way: every run leads to the state in which the call has
    returned exactly [v] and [f] has had its effect, that state is reached,
    it is final, and the call is never seen ended in another state (so not
    before the loop has run [process]). *)
Theorem cross_thread_call_returns_value f a k σ l h v w' :
  a !! 0 = Some (VObj l) →
  heap σ !! l = Some (OEvtHandler h) →
  wired σ h →
  pending σ = [] →
  f a k (world σ) = (Ret v, w') →
  ∃ σ',
    world σ' = w' ∧
    rtc step (mk_system [mk_thread false f a k AtCall] σ)
      (mk_system [mk_thread false f a k (Finished (Ret v))] σ') ∧
    (∀ s, rtc step (mk_system [mk_thread false f a k AtCall] σ) s →
          rtc step s (mk_system [mk_thread false f a k (Finished (Ret v))] σ')) ∧
    (∀ s, ¬ step (mk_system [mk_thread false f a k (Finished (Ret v))] σ') s) ∧
    (∀ s o', rtc step (mk_system [mk_thread false f a k AtCall] σ) s →
             solo_pc s = Some (Finished o') →
             s = mk_system [mk_thread false f a k (Finished (Ret v))] σ').
Proof.
  intros Ha Hl Hwired Hp Hf.
  exact (solo_call_all_runs f a k σ l h (Ret v) w' Ha Hl Hwired Hp Hf).
Qed.

(** When the class is not [KeyError], the exception the caller receives has
    the class and the message of the one the callee raised. *)
Lemma marshalled_message c a :
  c ≠ KeyError →
  exc_message c [VExc c a] = exc_message c a.
Proof. intros Hc. unfold exc_message. simpl. by rewrite decide_False. Qed.

End Solo.

(** ** The calls of the examples *)

Lemma run_sound {W} (cs : list choice) (s s' : system W) :
  run cs s = Some s' → rtc step s s'.
Proof.
  revert s. induction cs as [|c cs IH]; intros s; simpl.
  - by intros [= <-].
  - destruct (sched_step c s) as [s1|] eqn:H1; [|done].
    intros H. eapply rtc_l; [by eapply sched_step_sound|by apply IH].
Qed.

Lemma one_window_wired :
  wired one_window (mk_EvtHandler ∅ []).
Proof. by intros [? ?]. Qed.

(** C2. The callee raises [KeyError('x')], whose message is ['x'] with its
    quotes.  Every run of the caller and the event loop ends with the caller
    raising [KeyError(KeyError('x'))]: the class is the same, but the
    message is [KeyError('x')], not the message of the exception raised by
    the callee. *)
Theorem cross_thread_KeyError_message_differs :
  ∃ σ',
    rtc step (mk_system [worker lookup_x [VObj 1%positive]] one_window)
      (mk_system
         [mk_thread false lookup_x [VObj 1%positive] ∅
            (Finished (Raise KeyError [VExc KeyError [VStr "x"]] ["lookup"]))]
         σ') ∧
    (∀ s, rtc step (mk_system [worker lookup_x [VObj 1%positive]] one_window) s →
          rtc step s
            (mk_system
               [mk_thread false lookup_x [VObj 1%positive] ∅
                  (Finished (Raise KeyError [VExc KeyError [VStr "x"]] ["lookup"]))]
               σ')) ∧
    exc_message KeyError [VStr "x"] = "'x'" ∧
    exc_message KeyError [VExc KeyError [VStr "x"]] = "KeyError('x')" ∧
    exc_message KeyError [VExc KeyError [VStr "x"]] ≠
      exc_message KeyError [VStr "x"].
Proof.
  destruct (solo_call_all_runs lookup_x [VObj 1%positive] ∅ one_window
              1%positive (mk_EvtHandler ∅ [])
              (Raise KeyError [VStr "x"] ["lookup"]) tt)
    as (σ' & _ & Hreach & Hall & _); [done|done|apply one_window_wired|done|done|].
  exists σ'. repeat split; done.
Qed.

(** C7. Two threads call a wrapped method on the same object, which is not
    yet connected, and both test [hasattr] before either sets the marker.
    Both calls return their sums, and the object has been connected twice. *)
Theorem racing_first_calls_connect_twice :
  Connect_count (st two_callers) 1%positive = 0 ∧
  ∃ sf,
    run race two_callers = Some sf ∧
    rtc step two_callers sf ∧
    pc <$> threads sf = [Finished (Ret (VInt 5)); Finished (Ret (VInt 50))] ∧
    Connect_count (st sf) 1%positive = 2.
Proof.
  split; [reflexivity|].
  assert (Hobs :
    (λ s, (pc <$> threads s, Connect_count (st s) 1%positive)) <$>
      run race two_callers =
    Some ([Finished (Ret (VInt 5)); Finished (Ret (VInt 50))], 2))
    by (vm_compute; reflexivity).
  destruct (run race two_callers) as [sf|] eqn:Hrun; [|discriminate Hobs].
  exists sf. split; [reflexivity|]. split; [by eapply run_sound|].
  simpl in Hobs. injection Hobs as H1 H2. by split.
Qed.

(** The same two calls one after the other connect the object once. *)
Lemma calls_in_turn_connect_once :
  (λ s, (pc <$> threads s, Connect_count (st s) 1%positive)) <$>
    run in_turn two_callers =
  Some ([Finished (Ret (VInt 5)); Finished (Ret (VInt 50))], 1).
Proof. vm_compute. reflexivity. Qed.

(** The scenario of the specification: [wrapped_add(obj, 2, 3)] called from a
    worker thread returns [5]. *)
Lemma cross_thread_call_returns_value_witness :
  ∃ σ',
    world σ' = tt ∧
    rtc step
      (mk_system
         [mk_thread false add [VObj 1%positive; VInt 2; VInt 3] ∅ AtCall]
         one_window)
      (mk_system
         [mk_thread false add [VObj 1%positive; VInt 2; VInt 3] ∅
            (Finished (Ret (VInt 5)))] σ') ∧
    (∀ s, rtc step
            (mk_system
               [mk_thread false add [VObj 1%positive; VInt 2; VInt 3] ∅ AtCall]
               one_window) s →
          rtc step s
            (mk_system
               [mk_thread false add [VObj 1%positive; VInt 2; VInt 3] ∅
                  (Finished (Ret (VInt 5)))] σ')) ∧
    (∀ s, ¬ step
            (mk_system
               [mk_thread false add [VObj 1%positive; VInt 2; VInt 3] ∅
                  (Finished (Ret (VInt 5)))] σ') s) ∧
    (∀ s o', rtc step
               (mk_system
                  [mk_thread false add [VObj 1%positive; VInt 2; VInt 3] ∅ AtCall]
                  one_window) s →
             solo_pc s = Some (Finished o') →
             s = mk_system
                   [mk_thread false add [VObj 1%positive; VInt 2; VInt 3] ∅
                      (Finished (Ret (VInt 5)))] σ').
Proof.
  apply (cross_thread_call_returns_value add
           [VObj 1%positive; VInt 2; VInt 3] ∅ one_window 1%positive
           (mk_EvtHandler ∅ []) (VInt 5) tt).
  - reflexivity.
  - reflexivity.
  - intros [x Hx]. vm_compute in Hx. discriminate Hx.
  - reflexivity.
  - reflexivity.
Defined.

Lemma process_never_raises_and_sets_once_witness :
  ∃ σ' e',
    process fail_event posted = (Ret VNone, σ') ∧
    heap σ' !! event fail_event = Some (OEventWithData e') ∧
    flag (_event e') = true ∧
    set_calls (_event e') = S (set_calls (_event EventWithData_new)) ∧
    is_set (event fail_event) σ' = true.
Proof.
  apply (process_never_raises_and_sets_once fail_event posted EventWithData_new).
  reflexivity.
Defined.

Lemma process_stores_one_outcome_witness :
  ∃ σ' e',
    process add_event posted = (Ret VNone, σ') ∧
    heap σ' !! event add_event = Some (OEventWithData e') ∧
    match (func add_event (args add_event) (kwds add_event) (world posted)).1 with
    | Ret v =>
        result e' = Some v ∧ exception e' = None ∧ traceback e' = Some None
    | Raise c a tb =>
        result e' = None ∧ exception e' = Some (c, a) ∧
        traceback e' = Some (Some tb)
    end.
Proof.
  apply (process_stores_one_outcome add_event posted). reflexivity.
Defined.

(** A result stored beside a failure is the one returned. *)
Lemma invoke_read_prefers_result_witness :
  heap both !! event fail_event = Some (OEventWithData both_signal) ∧
  result both_signal = Some (VInt 7) ∧
  exception both_signal = Some (ValueError, [VStr "bad"]) ∧
  invoke_read fail_event both = (Ret (VInt 7), both).
Proof.
  split; [reflexivity|]. split; [reflexivity|]. split; [reflexivity|].
  exact (invoke_read_prefers_result fail_event both both_signal eq_refl).
Defined.

Lemma invoke_read_failure_only_once_witness :
  ∃ σ' e',
    invoke_read fail_event failed =
      (Raise ValueError [VExc ValueError [VStr "bad"]] ["fail"], σ') ∧
    heap σ' !! event fail_event = Some (OEventWithData e') ∧
    traceback e' = None ∧ exception e' = Some (ValueError, [VStr "bad"]) ∧
    result e' = None ∧
    invoke_read fail_event σ' =
      (Raise AttributeError (no_attribute "traceback") ["invoke"], σ').
Proof.
  apply (invoke_read_failure_only_once fail_event failed failed_signal
           ValueError [VStr "bad"] (Some ["fail"])); reflexivity.
Defined.

(** ** Any number of callers *)

Section Concurrent.

Context {W : Type}.
Implicit Types (σ : state W) (evt : MethodInvocationEvent W) (t : thread W)
  (f : callable W) (e : loc) (l : loc) (s : system W).

Lemma calling_invariant s : calling s → call_invariant s.
Proof.
  intros [Hp Hts]. split.
  - intros i t Hi. apply list_elem_of_lookup_2 in Hi.
    destruct (Hts t Hi) as (Hm & Hpc & Hl). split; [done|]. split; [done|].
    by rewrite Hpc.
  - intros i j ti tj ei ej _ Hi _ Hei. apply list_elem_of_lookup_2 in Hi.
    destruct (Hts ti Hi) as (_ & Hpc & _). unfold held in Hei.
    by rewrite Hpc in Hei.
  - intros x Hx. rewrite Hp in Hx. by apply elem_of_nil in Hx.
  - rewrite Hp. constructor.
Qed.

(** *** What the statements of other threads leave alone *)

Lemma thread_ok_stable σ σ' t :
  thread_ok σ t →
  (∀ l, is_EvtHandler σ l → is_EvtHandler σ' l) →
  (∀ e, holds t e →
        heap σ' !! e = heap σ !! e ∧
        ∀ x, x ∈ pending σ' → x ∈ pending σ ∨ event x.2 ≠ e) →
  thread_ok σ' t.
Proof.
  intros (Hm & (l & Ha & Hl) & Hpc) Hh Hst.
  split; [done|]. split; [by eauto|].
  assert (Hnp : ∀ evt, held t = Some evt →
            not_pending σ (event evt) → not_pending σ' (event evt)).
  { intros evt Hheld Hnp x Hx.
    destruct (Hst (event evt)) as [_ Hq]; [by exists evt|].
    destruct (Hq x Hx) as [Hold|Hne]; [by apply Hnp|done]. }
  assert (Hfr : ∀ evt, held t = Some evt →
            fresh_signal σ (event evt) → fresh_signal σ' (event evt)).
  { intros evt Hheld Hf. unfold fresh_signal.
    destruct (Hst (event evt)) as [-> _]; [by exists evt|done]. }
  assert (Hsg : ∀ evt, held t = Some evt →
            signalled σ t (event evt) → signalled σ' t (event evt)).
  { intros evt Hheld (w & Hw & Hn). exists w. split; [|by apply Hnp].
    destruct (Hst (event evt)) as [-> _]; [by exists evt|done]. }
  unfold held in *. destruct (pc t) as [| |v|v|v| |evt|evt|evt|o]; try done.
  - destruct Hpc as (Ho & Hf & Hn). eauto.
  - destruct Hpc as (Ho & [Hf|Hs]); eauto.
  - destruct Hpc as (Ho & Hs). eauto.
Qed.

(** *** The effect of one statement of a thread *)

Lemma own_fields t evt :
  own t evt →
  func evt = t_func t ∧ args evt = t_args t ∧ kwds evt = t_kwds t.
Proof. intros ->. done. Qed.

Lemma is_EvtHandler_insert_handler σ l h l' :
  is_EvtHandler σ l' →
  is_EvtHandler (set_heap (<[l := OEvtHandler h]> (heap σ)) σ) l'.
Proof.
  intros [h' Hl']. unfold is_EvtHandler. simpl.
  destruct (decide (l = l')) as [->|Hne].
  - rewrite lookup_insert_eq. eauto.
  - rewrite lookup_insert_ne by done. eauto.
Qed.

Lemma is_EvtHandler_insert_signal σ e x l' :
  ¬ is_EvtHandler σ e →
  is_EvtHandler σ l' →
  is_EvtHandler (set_heap (<[e := OEventWithData x]> (heap σ)) σ) l'.
Proof.
  intros Hne [h' Hl']. unfold is_EvtHandler. simpl.
  rewrite lookup_insert_ne; [by eauto|]. intros ->. apply Hne. by exists h'.
Qed.

Lemma not_EvtHandler_signal σ e x :
  heap σ !! e = Some (OEventWithData x) → ¬ is_EvtHandler σ e.
Proof. intros H [h Hh]. by rewrite H in Hh. Qed.

Lemma not_EvtHandler_fresh σ : ¬ is_EvtHandler σ (fresh (dom (heap σ))).
Proof. intros [h Hh]. by rewrite fresh_heap_None in Hh. Qed.

Lemma fresh_signal_unset σ e f a k evt :
  event evt = e → fresh_signal σ e →
  invoker_step (mk_thread false f a k (AtWait evt)) σ = None.
Proof. intros <- Hf. by eapply step_AtWait_blocked. Qed.

Lemma thread_ok_intro σ t l h :
  IsMainThread t = false →
  t_args t !! 0 = Some (VObj l) →
  heap σ !! l = Some (OEvtHandler h) →
  match pc t with
  | AtCall | AtSelf | AtConstruct => True
  | AtHasattr v | AtConnect v | AtSetattr v => t_args t !! 0 = Some v
  | AtPost evt =>
      own t evt ∧ fresh_signal σ (event evt) ∧ not_pending σ (event evt)
  | AtWait evt =>
      own t evt ∧ (fresh_signal σ (event evt) ∨ signalled σ t (event evt))
  | AtRead evt => own t evt ∧ signalled σ t (event evt)
  | Finished o => ∃ w, o = marshalled (out t w)
  end →
  thread_ok σ t.
Proof. intros Hm Ha Hl Hpc. split; [done|]. split; [|done]. exists l. split; [done|]. by exists h. Qed.

Lemma thread_step_effect t σ t' σ' :
  thread_ok σ t →
  (∀ x, x ∈ pending σ → fresh_signal σ (event x.2)) →
  invoker_step t σ = Some (t', σ') →
  thread_ok σ' t' ∧
  (∀ l, is_EvtHandler σ l → is_EvtHandler σ' l) ∧
  (∀ e x, heap σ !! e = Some (OEventWithData x) → ¬ holds t e →
          heap σ' !! e = Some (OEventWithData x)) ∧
  (∀ evt, pc t = AtWait evt → ¬ fresh_signal σ (event evt)) ∧
  ((pending σ' = pending σ ∧
    (held t' = held t ∨ held t' = None ∨
     (held t = None ∧
      ∃ evt, held t' = Some evt ∧ heap σ !! event evt = None)))
   ∨
   (∃ evt l, held t = Some evt ∧ pc t' = AtWait evt ∧
             pending σ' = (pending σ ++ [(l, evt)])%list ∧
             not_pending σ (event evt) ∧ fresh_signal σ (event evt) ∧
             heap σ' = heap σ)).
Proof.
  intros (Hm & (l & Ha & Hl) & Hpc) Hpend Hstep.
  destruct t as [m f a k p]. simpl in *. subst m.
  destruct Hl as [h Hl].
  destruct p as [| |v|v|v| |evt|evt|evt|o]; simpl in *.
  - (* AtCall *)
    injection Hstep as <- <-.
    split; [by eapply (thread_ok_intro _ _ l h)|].
    split; [done|]. split; [done|]. split; [done|]. left. eauto.
  - (* AtSelf *)
    unfold invoker_step, index in Hstep. simpl in Hstep. rewrite Ha in Hstep.
    injection Hstep as <- <-.
    split; [by eapply (thread_ok_intro _ _ l h)|].
    split; [done|]. split; [done|]. split; [done|]. left. eauto.
  - (* AtHasattr *)
    unfold invoker_step in Hstep. simpl in Hstep.
    destruct (hasattr v marker σ); injection Hstep as <- <-;
      (split; [by eapply (thread_ok_intro _ _ l h)|]);
      (split; [done|]); (split; [done|]); (split; [done|]); left; eauto.
  - (* AtConnect *)
    rewrite Hpc in Ha. injection Ha as ->.
    erewrite step_AtConnect in Hstep by done. injection Hstep as <- <-.
    split.
    { eapply (thread_ok_intro _ _ l); [done|done| |done].
      simpl. apply lookup_insert_eq. }
    split; [intros l'; apply is_EvtHandler_insert_handler|].
    split.
    { intros e x He _. simpl. rewrite lookup_insert_ne; [done|].
      intros ->. by rewrite Hl in He. }
    split; [done|]. left. eauto.
  - (* AtSetattr *)
    rewrite Hpc in Ha. injection Ha as ->.
    erewrite step_AtSetattr in Hstep by done. injection Hstep as <- <-.
    split.
    { eapply (thread_ok_intro _ _ l); [done|done| |done].
      simpl. apply lookup_insert_eq. }
    split; [intros l'; apply is_EvtHandler_insert_handler|].
    split.
    { intros e x He _. simpl. rewrite lookup_insert_ne; [done|].
      intros ->. by rewrite Hl in He. }
    split; [done|]. left. eauto.
  - (* AtConstruct *)
    injection Hstep as <- <-.
    split.
    { eapply (thread_ok_intro _ _ l h); [done|done| |].
      - simpl. rewrite lookup_insert_ne; [done|]. by eapply fresh_heap_ne.
      - simpl. split; [done|]. split.
        + unfold fresh_signal. simpl. by rewrite lookup_insert_eq.
        + intros x Hx. simpl in Hx. apply Hpend in Hx.
          intros Heq. unfold fresh_signal in Hx. rewrite Heq in Hx.
          by rewrite fresh_heap_None in Hx. }
    split; [intros l'; apply is_EvtHandler_insert_signal, not_EvtHandler_fresh|].
    split.
    { intros e x He _. simpl. rewrite lookup_insert_ne; [done|].
      by eapply fresh_heap_ne. }
    split; [done|]. left. split; [done|]. right. right. split; [done|].
    eexists. split; [done|]. simpl. apply fresh_heap_None.
  - (* AtPost *)
    destruct Hpc as (Hown & Hfresh & Hnp).
    destruct (own_fields _ _ Hown) as (_ & Hargs & _). simpl in Hargs.
    erewrite step_AtPost in Hstep; [|by rewrite Hargs|done].
    injection Hstep as <- <-.
    split; [eapply (thread_ok_intro _ _ l h); [done|done|done|]; simpl; by eauto|].
    split; [done|]. split; [done|]. split; [done|].
    right. by exists evt, l.
  - (* AtWait *)
    destruct Hpc as (Hown & Hsig).
    assert (Hnf : ¬ fresh_signal σ (event evt)).
    { intros Hf. by erewrite fresh_signal_unset in Hstep. }
    destruct Hsig as [Hf|Hsig]; [done|].
    unfold invoker_step in Hstep. simpl in Hstep.
    destruct (is_set (event evt) σ); [|done]. injection Hstep as <- <-.
    split; [by eapply (thread_ok_intro _ _ l h)|].
    split; [done|]. split; [done|].
    split; [by intros evt' [= <-]|]. left. eauto.
  - (* AtRead *)
    destruct Hpc as (Hown & w & Hw & Hnp).
    unfold invoker_step in Hstep. simpl in Hstep.
    unfold out in Hw. simpl in Hw.
    destruct (f a k w) as [[v|c x tb] w1] eqn:Hf; simpl in Hw.
    + erewrite invoke_read_result in Hstep; [|exact Hw|done].
      injection Hstep as <- <-.
      split.
      { eapply (thread_ok_intro _ _ l h); [done|done|done|]. simpl.
        exists w. unfold out. simpl. by rewrite Hf. }
      split; [done|]. split; [done|]. split; [done|]. left. eauto.
    + erewrite invoke_read_no_result in Hstep; [|exact Hw|done].
      erewrite reraise_stored_EventWithData in Hstep; [|exact Hw|done].
      injection Hstep as <- <-.
      split.
      { eapply (thread_ok_intro _ _ l h); [done|done| |].
        - simpl. rewrite lookup_insert_ne; [done|].
          intros Heq. rewrite Heq in Hw. by rewrite Hl in Hw.
        - simpl. exists w. unfold out. simpl. by rewrite Hf. }
      split.
      { intros l'. eapply is_EvtHandler_insert_signal.
        by eapply not_EvtHandler_signal. }
      split.
      { intros e y He Hnh. simpl. rewrite lookup_insert_ne; [done|].
        intros Heq. apply Hnh. by exists evt. }
      split; [done|]. left. eauto.
  - done.
Qed.

(** *** The effect of one turn of the event loop *)

Lemma loop_step_effect σ i σ' :
  (∀ x, x ∈ pending σ → fresh_signal σ (event x.2)) →
  dispatch i σ = Some σ' →
  ∃ d evt,
    pending σ !! i = Some (d, evt) ∧
    pending σ' = delete i (pending σ) ∧
    (heap σ' = heap σ ∨
     heap σ' =
       <[event evt :=
           OEventWithData
             (record_outcome
                (func evt (args evt) (kwds evt) (world σ)).1
                EventWithData_new)]> (heap σ)).
Proof.
  intros Hpend Hd. unfold dispatch in Hd.
  destruct (pending σ !! i) as [[d evt]|] eqn:Hi; [|done].
  exists d, evt. split; [done|].
  assert (Hf : fresh_signal σ (event evt)).
  { apply (Hpend (d, evt)). by eapply list_elem_of_lookup_2. }
  simpl in Hd.
  destruct (heap σ !! d) as [[h|x]|]; try (injection Hd as <-; by eauto).
  destruct (connected (_EVT_INVOKE_METHOD σ) h);
    [|injection Hd as <-; by eauto].
  unfold handler in Hd.
  erewrite process_EventWithData in Hd by exact Hf.
  injection Hd as <-. simpl. eauto.
Qed.

Lemma NoDup_fmap_delete_ne {A B} (g : A → B) (q : list A) i y x :
  NoDup (g <$> q) → q !! i = Some y → x ∈ delete i q → g x ≠ g y.
Proof.
  intros Hnd Hi Hx Heq.
  apply list_elem_of_lookup_1 in Hx as [j Hj].
  assert (∃ j', j' ≠ i ∧ q !! j' = Some x) as (j' & Hne & Hj').
  { destruct (decide (j < i)) as [Hlt|Hge].
    - exists j. rewrite list_lookup_delete_lt in Hj by done. split; [lia|done].
    - exists (S j). rewrite list_lookup_delete_ge in Hj by lia.
      split; [lia|done]. }
  apply Hne. eapply (NoDup_lookup (g <$> q) j' i (g x)); [done|..].
  - by rewrite list_lookup_fmap, Hj'.
  - by rewrite list_lookup_fmap, Hi, Heq.
Qed.

Lemma thread_ok_holds σ t e :
  thread_ok σ t → holds t e → ∃ x, heap σ !! e = Some (OEventWithData x).
Proof.
  intros (_ & _ & Hpc) (evt & Hheld & <-). unfold held in Hheld.
  destruct (pc t) as [| |v|v|v| |evt'|evt'|evt'|o]; try done;
    injection Hheld as ->.
  - destruct Hpc as (_ & Hf & _). by eexists.
  - destruct Hpc as (_ & [Hf|(w & Hw & _)]); by eexists.
  - destruct Hpc as (_ & (w & Hw & _)). by eexists.
Qed.

(** *** The invariant is kept by every step *)

Lemma held_AtWait t evt : pc t = AtWait evt → held t = Some evt.
Proof. intros H. unfold held. by rewrite H. Qed.

Lemma call_invariant_thread_step ts σ i t t' σ' :
  call_invariant (mk_system ts σ) →
  ts !! i = Some t →
  invoker_step t σ = Some (t', σ') →
  call_invariant (mk_system (<[i := t']> ts) σ').
Proof.
  intros [Hts Hdist Hpend Hnd] Hi Hstep. simpl in *.
  assert (Hfresh : ∀ x, x ∈ pending σ → fresh_signal σ (event x.2))
    by (intros x Hx; by apply Hpend).
  destruct (thread_step_effect t σ t' σ' (Hts i t Hi) Hfresh Hstep)
    as (Hok' & Hhandlers & Hframe & Hwait & Hcases).
  assert (Hlen : i < length ts) by by eapply lookup_lt_Some.
  (* an event pending before the step is not held by the stepping thread *)
  assert (Hnh : ∀ x, x ∈ pending σ → ¬ holds t (event x.2)).
  { intros x Hx (evt & Hheld & Heq).
    destruct (Hpend x Hx) as (Hf & j & tj & Hj & Hpcj).
    destruct (decide (i = j)) as [->|Hne].
    - rewrite Hi in Hj. injection Hj as <-. by eapply Hwait.
    - eapply (Hdist i j t tj evt x.2); eauto using held_AtWait. }
  assert (Hother : ∀ x, x ∈ pending σ →
            fresh_signal σ' (event x.2) ∧
            ∃ j tj, <[i := t']> ts !! j = Some tj ∧ pc tj = AtWait x.2).
  { intros x Hx. destruct (Hpend x Hx) as (Hf & j & tj & Hj & Hpcj). split.
    - unfold fresh_signal. eapply Hframe; [exact Hf|by apply Hnh].
    - exists j, tj. split; [|done].
      rewrite list_lookup_insert_ne; [done|]. intros ->.
      rewrite Hi in Hj. injection Hj as <-.
      apply (Hnh x Hx). exists x.2. split; [by apply held_AtWait|done]. }
  split; simpl.
  - (* every thread *)
    intros j tj Hj. destruct (decide (i = j)) as [->|Hne].
    + rewrite list_lookup_insert_eq in Hj by done. by injection Hj as <-.
    + rewrite list_lookup_insert_ne in Hj by done.
      eapply thread_ok_stable; [by eapply Hts|done|].
      intros e Hholds.
      destruct (thread_ok_holds σ tj e (Hts j tj Hj) Hholds) as [x Hx].
      assert (Hnt : ¬ holds t e).
      { intros (evt & Hh & Heq). destruct Hholds as (evt' & Hh' & Heq').
        eapply (Hdist i j t tj evt evt'); eauto. congruence. }
      split; [by rewrite (Hframe e x Hx Hnt)|].
      intros y Hy. destruct Hcases as [[Hp _]|(evt & l & Hh & _ & Hp & _)].
      * left. by rewrite <- Hp.
      * rewrite Hp in Hy. apply elem_of_app in Hy as [Hy|Hy]; [by left|].
        apply list_elem_of_singleton in Hy as ->. right. simpl.
        intros Heq. apply Hnt. by exists evt.
  - (* distinct signals *)
    assert (Hnew : ∀ j tj ei ej, i ≠ j → ts !! j = Some tj →
              held t' = Some ei → held tj = Some ej → event ei ≠ event ej).
    { intros j tj ei ej Hne Hj Hei Hej.
      destruct Hcases as [[_ [Hh|[Hh|(_ & evt & Hh & Hnone)]]]
                         |(evt & l & Hh & Hpc' & _)].
      - rewrite Hh in Hei. eapply (Hdist i j); eauto.
      - by rewrite Hh in Hei.
      - rewrite Hh in Hei. injection Hei as <-. intros Heq.
        destruct (thread_ok_holds σ tj (event ej) (Hts j tj Hj)) as [x Hx];
          [by exists ej|].
        rewrite Heq in Hnone. by rewrite Hnone in Hx.
      - apply held_AtWait in Hpc'. rewrite Hpc' in Hei. injection Hei as <-.
        eapply (Hdist i j); eauto. }
    intros a b ta tb ea eb Hab Ha Hb Hea Heb.
    destruct (decide (i = a)) as [->|Hia].
    + rewrite list_lookup_insert_eq in Ha by done. injection Ha as <-.
      rewrite list_lookup_insert_ne in Hb by done. by eapply Hnew.
    + rewrite list_lookup_insert_ne in Ha by done.
      destruct (decide (i = b)) as [->|Hib].
      * rewrite list_lookup_insert_eq in Hb by done. injection Hb as <-.
        apply not_eq_sym. eapply (Hnew a ta eb ea); eauto.
      * rewrite list_lookup_insert_ne in Hb by done. by eapply (Hdist a b).
  - (* pending events *)
    intros x Hx. destruct Hcases as [[Hp _]|(evt & l & Hh & Hpc' & Hp & Hnp & Hf & Hheap)].
    + rewrite Hp in Hx. by apply Hother.
    + rewrite Hp in Hx. apply elem_of_app in Hx as [Hx|Hx]; [by apply Hother|].
      apply list_elem_of_singleton in Hx as ->. simpl. split.
      * unfold fresh_signal. by rewrite Hheap.
      * exists i, t'. by rewrite list_lookup_insert_eq.
  - (* no event is pending twice *)
    destruct Hcases as [[Hp _]|(evt & l & Hh & Hpc' & Hp & Hnp & Hf & Hheap)].
    + by rewrite Hp.
    + rewrite Hp, fmap_app. apply NoDup_app. split; [done|]. split.
      * intros e He Hin. apply list_elem_of_singleton in Hin. simpl in Hin.
        apply list_elem_of_fmap in He as (x & -> & Hx). by apply (Hnp x Hx).
      * apply NoDup_singleton.
Qed.

Lemma holds_dec t e : holds t e ∨ ¬ holds t e.
Proof.
  unfold holds. destruct (held t) as [evt|]; [|right; by intros (? & ? & _)].
  destruct (decide (event evt = e)) as [Heq|Hne]; [left; by exists evt|].
  right. intros (evt' & [= <-] & Heq). done.
Qed.

Lemma call_invariant_loop_step ts σ i σ' :
  call_invariant (mk_system ts σ) →
  dispatch i σ = Some σ' →
  call_invariant (mk_system ts σ').
Proof.
  intros [Hts Hdist Hpend Hnd] Hd. simpl in *.
  assert (Hfresh : ∀ x, x ∈ pending σ → fresh_signal σ (event x.2))
    by (intros x Hx; by apply Hpend).
  destruct (loop_step_effect σ i σ' Hfresh Hd) as (d & evt & Hi & Hp & Hheap).
  assert (Hin : (d, evt) ∈ pending σ) by by eapply list_elem_of_lookup_2.
  destruct (Hpend _ Hin) as (Hf & j & tj & Hj & Hpcj). simpl in *.
  assert (Hsub : ∀ x, x ∈ pending σ' → x ∈ pending σ).
  { intros x Hx. rewrite Hp in Hx.
    eapply elem_of_sublist; [done|apply sublist_delete]. }
  assert (Hne : ∀ x, x ∈ pending σ' → event x.2 ≠ event evt).
  { intros x Hx. rewrite Hp in Hx.
    by apply (NoDup_fmap_delete_ne (λ x, event x.2) (pending σ) i (d, evt) x). }
  assert (Hhandlers : ∀ l, is_EvtHandler σ l → is_EvtHandler σ' l).
  { intros l [h Hl]. unfold is_EvtHandler.
    destruct Hheap as [->| ->]; [by eauto|].
    rewrite lookup_insert_ne; [by eauto|].
    intros <-. unfold fresh_signal in Hf. by rewrite Hf in Hl. }
  assert (Hframe : ∀ e, e ≠ event evt → heap σ' !! e = heap σ !! e).
  { intros e He. destruct Hheap as [->| ->]; [done|].
    by rewrite lookup_insert_ne. }
  split; simpl.
  - (* every thread *)
    intros a ta Ha. destruct (holds_dec ta (event evt)) as [Hh|Hnh].
    + (* the thread whose event was dispatched *)
      assert (a = j) as ->.
      { destruct Hh as (ea & Hea & Heq). destruct (decide (a = j)); [done|].
        destruct (Hdist a j ta tj ea evt); eauto using held_AtWait. }
      rewrite Hj in Ha. injection Ha as <-.
      destruct (Hts j tj Hj) as (Hm & Hl & Hpc). rewrite Hpcj in Hpc.
      destruct Hpc as (Hown & _).
      split; [done|]. split.
      { destruct Hl as (l & Hl1 & Hl2). eauto. }
      rewrite Hpcj. split; [done|].
      destruct Hheap as [Hh'|Hh'].
      * left. unfold fresh_signal. by rewrite Hh'.
      * right. exists (world σ). split; [|done].
        rewrite Hh', lookup_insert_eq. unfold out.
        destruct (own_fields _ _ Hown) as (-> & -> & ->). done.
    + eapply thread_ok_stable; [by eapply Hts|done|].
      intros e He. split; [|by eauto].
      apply Hframe. by intros ->.
  - done.
  - (* pending events *)
    intros x Hx. destruct (Hpend x (Hsub x Hx)) as (Hfx & Hthread).
    split; [|done]. unfold fresh_signal. rewrite Hframe; [done|by apply Hne].
  - rewrite Hp, list_fmap_delete.
    eapply sublist_NoDup; [done|apply sublist_delete].
Qed.

Lemma call_invariant_step s s' :
  call_invariant s → step s s' → call_invariant s'.
Proof.
  intros Hinv Hstep. destruct Hstep.
  - by eapply call_invariant_thread_step.
  - by eapply call_invariant_loop_step.
Qed.

Lemma call_invariant_reachable s s' :
  call_invariant s → rtc step s s' → call_invariant s'.
Proof.
  intros Hinv Hrtc. induction Hrtc as [|s1 s2 s3 Hstep _ IH]; [done|].
  apply IH. by eapply call_invariant_step.
Qed.

(** A thread keeps its callable and its arguments. *)
Lemma invoker_step_goto t σ t' σ' :
  invoker_step t σ = Some (t', σ') → t' = goto t (pc t').
Proof.
  unfold invoker_step, advance.
  repeat case_match; intros [= <- <-]; done.
Qed.

Lemma goto_goto t p q : goto (goto t p) q = goto t q.
Proof. done. Qed.

Lemma step_same_calls s s' i t' :
  step s s' → threads s' !! i = Some t' →
  ∃ t, threads s !! i = Some t ∧ t' = goto t (pc t').
Proof.
  intros Hstep Hi. destruct Hstep as [ts σ j t t1 σ' Hj Hs|ts σ j σ' Hd];
    simpl in *.
  - destruct (decide (j = i)) as [->|Hne].
    + rewrite list_lookup_insert_eq in Hi by by eapply lookup_lt_Some.
      injection Hi as <-. exists t. split; [done|]. by eapply invoker_step_goto.
    + rewrite list_lookup_insert_ne in Hi by done. exists t'. by destruct t'.
  - exists t'. by destruct t'.
Qed.

Lemma rtc_same_calls s s' i t' :
  rtc step s s' → threads s' !! i = Some t' →
  ∃ t, threads s !! i = Some t ∧ t' = goto t (pc t').
Proof.
  intros Hrtc. revert t'.
  induction Hrtc as [s|s1 s2 s3 Hstep _ IH]; intros t' Hi.
  - exists t'. by destruct t'.
  - destruct (IH t' Hi) as (t2 & H2 & ->).
    destruct (step_same_calls _ _ _ _ Hstep H2) as (t1 & H1 & ->).
    exists t1. split; [done|]. by rewrite !goto_goto.
Qed.

(** *** The course of a call *)

Lemma invoke_read_no_signal evt σ :
  (∀ x, heap σ !! event evt ≠ Some (OEventWithData x)) →
  invoke_read evt σ =
    (Raise AttributeError (no_attribute "exception") ["invoke"], σ).
Proof.
  intros Hno. unfold invoke_read, try_except, reraise_stored, bind, getattr.
  destruct (heap σ !! event evt) as [[h|x]|] eqn:H; [|by destruct (Hno x)|];
    simpl; by rewrite H.
Qed.

(** The outcome of reading depends on the event's own [EventWithData]
    alone. *)
Lemma invoke_read_own_signal evt σ1 σ2 :
  heap σ1 !! event evt = heap σ2 !! event evt →
  (invoke_read evt σ1).1 = (invoke_read evt σ2).1.
Proof.
  intros Heq. destruct (heap σ2 !! event evt) as [[h|x]|] eqn:H2.
  - by rewrite !invoke_read_no_signal by (intros x; congruence).
  - destruct (result x) as [v|] eqn:Hr.
    + by rewrite (invoke_read_result evt σ1 x v), (invoke_read_result evt σ2 x v).
    + rewrite (invoke_read_no_result evt σ1 x), (invoke_read_no_result evt σ2 x)
        by done.
      destruct (traceback x) as [tb|] eqn:Htb.
      * by rewrite (reraise_stored_EventWithData evt σ1 x tb),
          (reraise_stored_EventWithData evt σ2 x tb).
      * by rewrite (reraise_stored_deleted evt σ1 x),
          (reraise_stored_deleted evt σ2 x).
  - by rewrite !invoke_read_no_signal by (intros x; congruence).
Qed.

(** A thread gets an event only by constructing it, keeps it, and ends its
    call only by reading the outcome from it. *)
Lemma thread_step_flow t σ t' σ' :
  thread_ok σ t →
  invoker_step t σ = Some (t', σ') →
  (∀ evt, held t' = Some evt →
     held t = Some evt ∨
     (pc t = AtConstruct ∧ heap σ !! event evt = None)) ∧
  (∀ o, pc t' = Finished o →
     ∃ evt, pc t = AtRead evt ∧ invoke_read evt σ = (o, σ')).
Proof.
  intros (Hm & (l & Ha & h & Hl) & Hpc) Hstep.
  destruct t as [m f a k p]. simpl in *. subst m.
  destruct p as [| |v|v|v| |evt|evt|evt|o]; simpl in *.
  - by injection Hstep as <- <-.
  - unfold invoker_step, index in Hstep. simpl in Hstep. rewrite Ha in Hstep.
    by injection Hstep as <- <-.
  - unfold invoker_step in Hstep. simpl in Hstep.
    by destruct (hasattr v marker σ); injection Hstep as <- <-.
  - rewrite Hpc in Ha. injection Ha as ->.
    erewrite step_AtConnect in Hstep by done. by injection Hstep as <- <-.
  - rewrite Hpc in Ha. injection Ha as ->.
    erewrite step_AtSetattr in Hstep by done. by injection Hstep as <- <-.
  - injection Hstep as <- <-. split; [|done].
    intros evt [= <-]. right. split; [done|]. simpl. apply fresh_heap_None.
  - destruct Hpc as (Hown & Hfresh & Hnp).
    destruct (own_fields _ _ Hown) as (_ & Hargs & _). simpl in Hargs.
    erewrite step_AtPost in Hstep; [|by rewrite Hargs|done].
    injection Hstep as <- <-. split; [|done]. intros evt' [= <-]. by left.
  - unfold invoker_step in Hstep. simpl in Hstep.
    destruct (is_set (event evt) σ); [|done]. injection Hstep as <- <-.
    split; [|done]. intros evt' [= <-]. by left.
  - unfold invoker_step, advance in Hstep. simpl in Hstep.
    destruct (invoke_read evt σ) as [[v|c x tb] σ1] eqn:Hread;
      injection Hstep as <- <-; (split; [done|]);
      intros o [= <-]; by exists evt.
  - done.
Qed.

(** Before it has an event, a thread can always execute its next statement,
    which does not end the call. *)
Lemma thread_step_before_post t σ :
  thread_ok σ t →
  held t = None →
  (∀ o, pc t ≠ Finished o) →
  ∃ t' σ',
    invoker_step t σ = Some (t', σ') ∧
    (∀ o, pc t' ≠ Finished o) ∧
    (held t' = None ∨ ∃ evt, pc t' = AtPost evt) ∧
    (remaining t' σ' < remaining t σ)%nat.
Proof.
  intros (Hm & (l & Ha & h & Hl) & Hpc) Hheld Hfin.
  destruct t as [m f a k p]. simpl in *. subst m.
  destruct p as [| |v|v|v| |evt|evt|evt|o]; simpl in *; try done.
  - eexists _, _. split; [reflexivity|]. simpl. split; [done|].
    split; [by left|]. unfold remaining. simpl. lia.
  - eexists _, _. split.
    { unfold invoker_step, index. simpl. by rewrite Ha. }
    simpl. split; [done|]. split; [by left|]. unfold remaining. simpl. lia.
  - unfold invoker_step. simpl. destruct (hasattr v marker σ);
      (eexists _, _; split; [reflexivity|]; simpl; split; [done|];
       split; [by left|]; unfold remaining; simpl; lia).
  - rewrite Hpc in Ha. injection Ha as ->.
    eexists _, _. split; [by eapply step_AtConnect|]. simpl.
    split; [done|]. split; [by left|]. unfold remaining. simpl. lia.
  - rewrite Hpc in Ha. injection Ha as ->.
    eexists _, _. split; [by eapply step_AtSetattr|]. simpl.
    split; [done|]. split; [by left|]. unfold remaining. simpl. lia.
  - eexists _, _. split; [reflexivity|]. simpl. split; [done|].
    split; [right; by eexists|]. unfold remaining. simpl. lia.
  - by destruct (Hfin o).
Qed.

Lemma reach_construct (n : nat) s (i : nat) t :
  call_invariant s →
  threads s !! i = Some t →
  held t = None →
  (∀ o, pc t ≠ Finished o) →
  (remaining t (st s) ≤ n)%nat →
  ∃ s' t' evt,
    rtc step s s' ∧ threads s' !! i = Some t' ∧ pc t' = AtPost evt.
Proof.
  revert s t. induction n as [|n IH]; intros s t Hinv Hi Hheld Hfin Hn.
  - exfalso. unfold remaining, held in *.
    destruct (pc t) as [| |v|v|v| |evt|evt|evt|o]; try (simpl in Hn; lia);
      try done.
    by destruct (Hfin o).
  - destruct s as [ts σ]. simpl in *.
    destruct (thread_step_before_post t σ (inv_threads _ Hinv i t Hi) Hheld Hfin)
      as (t1 & σ1 & Hstep & Hfin1 & Hnext & Hlt).
    assert (Hlen : i < length ts) by by eapply lookup_lt_Some.
    assert (Hs1 : step (mk_system ts σ) (mk_system (<[i := t1]> ts) σ1))
      by by eapply step_thread.
    assert (Hi1 : <[i := t1]> ts !! i = Some t1)
      by by rewrite list_lookup_insert_eq.
    destruct Hnext as [Hheld1|[evt Hpc1]].
    + destruct (IH (mk_system (<[i := t1]> ts) σ1) t1)
        as (s' & t' & evt & Hrtc & Hi' & Hpc');
        [by eapply call_invariant_step|done|done|done|simpl; lia|].
      exists s', t', evt. split; [by eapply rtc_l|done].
    + exists (mk_system (<[i := t1]> ts) σ1), t1, evt.
      split; [by apply rtc_once|done].
Qed.

(** What a step does to the [EventWithData] of a thread's event. *)
Lemma step_frame s s' (j : nat) tj ej :
  call_invariant s →
  step s s' →
  threads s !! j = Some tj →
  held tj = Some ej →
  heap (st s') !! event ej = heap (st s) !! event ej ∨
  (∃ t', invoker_step tj (st s) = Some (t', st s') ∧
         threads s' = <[j := t']> (threads s)) ∨
  (∃ (k : nat) d,
     pending (st s) !! k = Some (d, ej) ∧ threads s' = threads s ∧
     heap (st s') !! event ej =
       Some (OEventWithData
               (record_outcome (out tj (world (st s))) EventWithData_new))).
Proof.
  intros [Hts Hdist Hpend Hnd] Hstep Hj Hheld.
  assert (Hfresh : ∀ x, x ∈ pending (st s) → fresh_signal (st s) (event x.2))
    by (intros x Hx; by apply Hpend).
  destruct Hstep as [ts σ i t t' σ' Hi Hs|ts σ i σ' Hd]; simpl in *.
  - destruct (decide (i = j)) as [->|Hne].
    + rewrite Hi in Hj. injection Hj as ->. right. left. by exists t'.
    + left.
      destruct (thread_step_effect t σ t' σ' (Hts i t Hi) Hfresh Hs)
        as (_ & _ & Hframe & _).
      destruct (thread_ok_holds σ tj (event ej) (Hts j tj Hj)) as [x Hx];
        [by exists ej|].
      rewrite Hx. apply Hframe; [done|].
      intros (evt & Hh & Heq). by eapply (Hdist i j t tj evt ej).
  - destruct (loop_step_effect σ i σ' Hfresh Hd)
      as (d & evt0 & Hi & Hp & [Hheap|Hheap]); [left; by rewrite Hheap|].
    destruct (decide (event evt0 = event ej)) as [Heq|Hne].
    + right. right.
      destruct (Hpend (d, evt0)) as (_ & j0 & t0 & Hj0 & Hpc0);
        [by eapply list_elem_of_lookup_2|]. simpl in *.
      assert (j0 = j) as ->.
      { destruct (decide (j0 = j)) as [|Hne]; [done|].
        destruct (Hdist j0 j t0 tj evt0 ej); eauto using held_AtWait. }
      rewrite Hj in Hj0. injection Hj0 as <-.
      rewrite (held_AtWait _ _ Hpc0) in Hheld. injection Hheld as <-.
      exists i, d. split; [done|]. split; [done|].
      rewrite Hheap, lookup_insert_eq. unfold out.
      destruct (Hts j tj Hj) as (_ & _ & Hok). rewrite Hpc0 in Hok.
      destruct Hok as (Hown & _).
      by destruct (own_fields _ _ Hown) as (-> & -> & ->).
    + left. rewrite Hheap. by rewrite lookup_insert_ne.
Qed.

(** C8. Every call from another thread constructs its own event with its own
    fresh completion signal, and calls do not share signals.

    - The statement [evt = MethodInvocationEvent(func, args, kwds)] always
      succeeds: the new event carries the thread's callable and arguments
      and refers to an [EventWithData] allocated at an address not in use,
      with the flag false, no result, and [exception] and [traceback]
      [None]; nothing else in the heap and nothing in the queue changes.
    - The outcome that [invoke] reads depends on the [EventWithData] of its
      own event alone.
    - In every state that any number of concurrent calls can reach, under
      every interleaving: a call that has no event yet can be run on to the
      point where it holds a freshly constructed event of its own, different
      from the events of all other threads and not pending; a thread gets
      an event only by constructing it, keeps that event, and ends its call
      only by reading the outcome from it; the event of a thread carries the
      callable and arguments the thread started with; two different threads
      never hold events with the same [EventWithData]; and a step changes
      the [EventWithData] of a thread's event only if it is a statement of
      that thread or the turn of the loop for that very event, which writes
      the outcome of the thread's own callable run in the current state. *)
Theorem concurrent_calls_have_own_signals s0 :
  calling s0 →
  (∀ f a k σ, ∃ evt σ' x,
      invoker_step (mk_thread false f a k AtConstruct) σ =
        Some (mk_thread false f a k (AtPost evt), σ') ∧
      MethodInvocationEvent_init f a k σ = (Ret evt, σ') ∧
      func evt = f ∧ args evt = a ∧ kwds evt = k ∧
      heap σ !! event evt = None ∧
      heap σ' !! event evt = Some (OEventWithData x) ∧
      flag (_event x) = false ∧ result x = None ∧
      exception x = None ∧ traceback x = Some None ∧
      (∀ l, l ≠ event evt → heap σ' !! l = heap σ !! l) ∧
      pending σ' = pending σ) ∧
  (∀ evt σ1 σ2,
      heap σ1 !! event evt = heap σ2 !! event evt →
      (invoke_read evt σ1).1 = (invoke_read evt σ2).1) ∧
  ∀ s, rtc step s0 s →
    (∀ (i : nat) t, threads s !! i = Some t → held t = None →
       (∀ o, pc t ≠ Finished o) →
       ∃ s' evt,
         rtc step s s' ∧
         threads s' !! i = Some (goto t (AtPost evt)) ∧
         own t evt ∧ fresh_signal (st s') (event evt) ∧
         not_pending (st s') (event evt) ∧
         ∀ (j : nat) tj ej, j ≠ i → threads s' !! j = Some tj →
           held tj = Some ej → event ej ≠ event evt) ∧
    (∀ (i : nat) t t' σ', threads s !! i = Some t →
       invoker_step t (st s) = Some (t', σ') →
       (∀ evt, held t' = Some evt →
          held t = Some evt ∨
          (pc t = AtConstruct ∧ heap (st s) !! event evt = None)) ∧
       (∀ o, pc t' = Finished o →
          ∃ evt, pc t = AtRead evt ∧ invoke_read evt (st s) = (o, σ'))) ∧
    (∀ (i : nat) t evt, threads s !! i = Some t → held t = Some evt →
       own t evt ∧ is_EventWithData (st s) (event evt) ∧
       ∃ t0, threads s0 !! i = Some t0 ∧ t = goto t0 (pc t)) ∧
    (∀ (i j : nat) ti tj ei ej, i ≠ j →
       threads s !! i = Some ti → threads s !! j = Some tj →
       held ti = Some ei → held tj = Some ej →
       event ei ≠ event ej) ∧
    (∀ s' (j : nat) tj ej, step s s' →
       threads s !! j = Some tj → held tj = Some ej →
       heap (st s') !! event ej = heap (st s) !! event ej ∨
       (∃ t', invoker_step tj (st s) = Some (t', st s') ∧
              threads s' = <[j := t']> (threads s)) ∨
       (∃ (k : nat) d,
          pending (st s) !! k = Some (d, ej) ∧ threads s' = threads s ∧
          heap (st s') !! event ej =
            Some (OEventWithData
                    (record_outcome (out tj (world (st s)))
                       EventWithData_new)))).
Proof.
  intros Hcalling. split; [|split; [exact invoke_read_own_signal|]].
  - intros f a k σ. eexists _, _, _. split; [reflexivity|].
    split; [reflexivity|]. simpl. repeat (split; [reflexivity|]).
    split; [apply fresh_heap_None|]. rewrite lookup_insert_eq.
    split; [reflexivity|]. repeat (split; [done|]).
    split; [|done]. intros l Hl. by rewrite lookup_insert_ne.
  - intros s Hrtc.
    pose proof (call_invariant_reachable _ _ (calling_invariant _ Hcalling) Hrtc)
      as Hinv.
    split; [|split; [|split; [|split]]].
    + (* a call without an event can construct one *)
      intros i t Hi Hheld Hfin.
      destruct (reach_construct (remaining t (st s)) s i t Hinv Hi Hheld Hfin)
        as (s' & t' & evt & Hrtc' & Hi' & Hpc'); [done|].
      pose proof (call_invariant_reachable _ _ Hinv Hrtc')
        as [Hts' Hdist' Hpend' Hnd'].
      destruct (rtc_same_calls _ _ _ _ Hrtc' Hi') as (t0 & Hi0 & Ht').
      rewrite Hi in Hi0. injection Hi0 as <-. rewrite Hpc' in Ht'. subst t'.
      exists s', evt. split; [done|]. split; [done|].
      destruct (Hts' i _ Hi') as (_ & _ & Hok). simpl in Hok.
      destruct Hok as (Hown & Hfresh & Hnp).
      split; [done|]. split; [done|]. split; [done|].
      intros j tj ej Hne Hj Hej Heq.
      by eapply (Hdist' j i tj (goto t (AtPost evt)) ej evt).
    + intros i t t' σ' Hi Hstep.
      by eapply thread_step_flow; [eapply (inv_threads _ Hinv)|].
    + intros i t evt Hi Hheld.
      destruct (thread_ok_holds (st s) t (event evt) (inv_threads _ Hinv i t Hi))
        as [x Hx]; [by exists evt|].
      split; [|split; [by exists x|by eapply rtc_same_calls]].
      destruct (inv_threads _ Hinv i t Hi) as (_ & _ & Hpc).
      unfold held in Hheld.
      destruct (pc t); try done; injection Hheld as ->; by destruct Hpc.
    + exact (inv_distinct _ Hinv).
    + intros s' j tj ej Hstep Hj Hheld. by eapply step_frame.
Qed.

End Concurrent.

(** Two concurrent calls of [add] on the same object. *)
Lemma concurrent_calls_have_own_signals_witness :
  calling two_callers ∧
  (
  (∀ (f : callable unit) a k σ, ∃ evt σ' x,
      invoker_step (mk_thread false f a k AtConstruct) σ =
        Some (mk_thread false f a k (AtPost evt), σ') ∧
      MethodInvocationEvent_init f a k σ = (Ret evt, σ') ∧
      func evt = f ∧ args evt = a ∧ kwds evt = k ∧
      heap σ !! event evt = None ∧
      heap σ' !! event evt = Some (OEventWithData x) ∧
      flag (_event x) = false ∧ result x = None ∧
      exception x = None ∧ traceback x = Some None ∧
      (∀ l, l ≠ event evt → heap σ' !! l = heap σ !! l) ∧
      pending σ' = pending σ) ∧
  (∀ (evt : MethodInvocationEvent unit) σ1 σ2,
      heap σ1 !! event evt = heap σ2 !! event evt →
      (invoke_read evt σ1).1 = (invoke_read evt σ2).1) ∧
  ∀ s, rtc step two_callers s →
    (∀ (i : nat) t, threads s !! i = Some t → held t = None →
       (∀ o, pc t ≠ Finished o) →
       ∃ s' evt,
         rtc step s s' ∧
         threads s' !! i = Some (goto t (AtPost evt)) ∧
         own t evt ∧ fresh_signal (st s') (event evt) ∧
         not_pending (st s') (event evt) ∧
         ∀ (j : nat) tj ej, j ≠ i → threads s' !! j = Some tj →
           held tj = Some ej → event ej ≠ event evt) ∧
    (∀ (i : nat) t t' σ', threads s !! i = Some t →
       invoker_step t (st s) = Some (t', σ') →
       (∀ evt, held t' = Some evt →
          held t = Some evt ∨
          (pc t = AtConstruct ∧ heap (st s) !! event evt = None)) ∧
       (∀ o, pc t' = Finished o →
          ∃ evt, pc t = AtRead evt ∧ invoke_read evt (st s) = (o, σ'))) ∧
    (∀ (i : nat) t evt, threads s !! i = Some t → held t = Some evt →
       own t evt ∧ is_EventWithData (st s) (event evt) ∧
       ∃ t0, threads two_callers !! i = Some t0 ∧ t = goto t0 (pc t)) ∧
    (∀ (i j : nat) ti tj ei ej, i ≠ j →
       threads s !! i = Some ti → threads s !! j = Some tj →
       held ti = Some ei → held tj = Some ej →
       event ei ≠ event ej) ∧
    (∀ s' (j : nat) tj ej, step s s' →
       threads s !! j = Some tj → held tj = Some ej →
       heap (st s') !! event ej = heap (st s) !! event ej ∨
       (∃ t', invoker_step tj (st s) = Some (t', st s') ∧
              threads s' = <[j := t']> (threads s)) ∨
       (∃ (k : nat) d,
          pending (st s) !! k = Some (d, ej) ∧ threads s' = threads s ∧
          heap (st s') !! event ej =
            Some (OEventWithData
                    (record_outcome (out tj (world (st s)))
                       EventWithData_new))))).
Proof.
  assert (H : calling two_callers).
  { split; [reflexivity|]. intros t Ht.
    assert (Hcases : t = worker add [VObj 1%positive; VInt 2; VInt 3] ∨
                     t = worker add [VObj 1%positive; VInt 20; VInt 30]).
    { simpl in Ht. apply elem_of_cons in Ht as [->|Ht]; [by left|].
      apply list_elem_of_singleton in Ht as ->. by right. }
    split; [by destruct Hcases as [->| ->]|].
    split; [by destruct Hcases as [->| ->]|].
    exists 1%positive. split; [by destruct Hcases as [->| ->]|].
    exists (mk_EvtHandler ∅ []). reflexivity. }
  split; [exact H|].
  exact (concurrent_calls_have_own_signals two_callers H).
Defined.

(** ** Further properties of the call protocol *)

Section Further.

Context {W : Type}.
Implicit Types (σ : state W) (evt : MethodInvocationEvent W) (t : thread W)
  (f : callable W) (e : loc) (l : loc) (s : system W).

(** X1. A thread other than the main thread calls the wrapped [f] and [f]
    raises an instance of a class [c] of [exc_class] (the builtin classes
    listed there and classes declared [class N(Exception): pass], all of
    which inherit the constructor of [BaseException]) with arguments [x].
    Every run of the caller and the event loop ends with the caller raising
    a new instance of the same class [c], whose single argument is the
    exception raised by [f], with the traceback recorded by [process]; [f]
    has had its effect.  When [c] is not [KeyError], the message is the one
    of the exception raised by [f]. *)
Theorem cross_thread_call_raises_same_class f a k σ l h c x tb w' :
  a !! 0 = Some (VObj l) →
  heap σ !! l = Some (OEvtHandler h) →
  wired σ h →
  pending σ = [] →
  f a k (world σ) = (Raise c x tb, w') →
  ∃ σ',
    world σ' = w' ∧
    rtc step (mk_system [mk_thread false f a k AtCall] σ)
      (mk_system
         [mk_thread false f a k (Finished (Raise c [VExc c x] tb))] σ') ∧
    (∀ s, rtc step (mk_system [mk_thread false f a k AtCall] σ) s →
          rtc step s
            (mk_system
               [mk_thread false f a k (Finished (Raise c [VExc c x] tb))] σ')) ∧
    (c ≠ KeyError → exc_message c [VExc c x] = exc_message c x).
Proof.
  intros Ha Hl Hwired Hp Hf.
  destruct (solo_call_all_runs f a k σ l h (Raise c x tb) w' Ha Hl Hwired Hp Hf)
    as (σ' & Hw & Hreach & Hall & _).
  exists σ'. split; [done|]. split; [done|]. split; [done|].
  apply marshalled_message.
Qed.

(** The statements of a thread other than the main thread leave the
    program's own state alone. *)
Lemma worker_step_keeps_world t σ t' σ' :
  IsMainThread t = false →
  invoker_step t σ = Some (t', σ') →
  world σ' = world σ ∧ _EVT_INVOKE_METHOD σ' = _EVT_INVOKE_METHOD σ.
Proof.
  intros Hm. unfold invoker_step. rewrite Hm.
  destruct (pc t) as [| |v|v|v| |evt|evt|evt|o].
  - by intros [= <- <-].
  - unfold index, raise, ret, advance. destruct (t_args t !! 0);
      by intros [= <- <-].
  - destruct (hasattr v marker σ); by intros [= <- <-].
  - unfold Connect, on_EvtHandler, advance.
    repeat case_match; simplify_eq; by intros [= <- <-].
  - unfold set_marker, on_EvtHandler, advance.
    repeat case_match; simplify_eq; by intros [= <- <-].
  - by intros [= <- <-].
  - unfold invoke_post, bind, index, raise, ret, wx_PostEvent, advance.
    repeat case_match; simplify_eq; by intros [= <- <-].
  - destruct (is_set (event evt) σ); [|done]. by intros [= <- <-].
  - unfold invoke_read, try_except, reraise_stored, bind, getattr, setattr,
      construct_same_type, raise_with_traceback, raise, ret, advance.
    repeat case_match; simplify_eq; by intros [= <- <-].
  - done.
Qed.

Lemma process_world evt σ :
  world (process evt σ).2 = (func evt (args evt) (kwds evt) (world σ)).2.
Proof.
  unfold process, try_except_all, bind, call, set_exc_info,
    EventWithData_set, setattr, ret.
  destruct (func evt (args evt) (kwds evt) (world σ)) as [[v|c x tb] w]; simpl;
    repeat (case_match; simplify_eq; simpl in *); done.
Qed.

(** X2. Wrapped functions run only in the event loop.  In a system whose
    threads are all other than the main thread, every step is either a
    statement of one thread, which leaves the program's own state (the state
    the wrapped functions act on) as it is, or a turn of the loop for a
    pending event, which leaves that state as it is or changes it by
    exactly one run of the function of that event on its arguments. *)
Theorem wrapped_function_runs_only_in_loop s s' :
  (∀ t, t ∈ threads s → IsMainThread t = false) →
  step s s' →
  (∃ (i : nat) t t',
     threads s !! i = Some t ∧
     invoker_step t (st s) = Some (t', st s') ∧
     threads s' = <[i := t']> (threads s) ∧
     world (st s') = world (st s)) ∨
  (∃ (k : nat) d evt,
     pending (st s) !! k = Some (d, evt) ∧ threads s' = threads s ∧
     (world (st s') = world (st s) ∨
      world (st s') = (func evt (args evt) (kwds evt) (world (st s))).2)).
Proof.
  intros Hworkers Hstep.
  destruct Hstep as [ts σ i t t' σ' Hi Hs|ts σ i σ' Hd]; simpl in *.
  - left. exists i, t, t'. split; [done|]. split; [done|]. split; [done|].
    eapply worker_step_keeps_world; [|done].
    apply Hworkers. by eapply list_elem_of_lookup_2.
  - right. unfold dispatch in Hd.
    destruct (pending σ !! i) as [[d evt]|] eqn:Hi; [|done].
    exists i, d, evt. split; [done|]. split; [done|]. simpl in Hd.
    destruct (heap σ !! d) as [[h|x]|]; try (injection Hd as <-; by left).
    destruct (connected (_EVT_INVOKE_METHOD σ) h);
      [|injection Hd as <-; by left].
    injection Hd as <-. right. unfold handler. by rewrite process_world.
Qed.

(** X3. A call from another thread whose first argument is not a wx event
    handler (a number, a string, [None], an [EventWithData], ...) ends with
    [AttributeError] at [self.Connect], after four statements; no event has
    been constructed or posted and the state is unchanged. *)
Theorem worker_call_on_non_handler f a k σ v :
  a !! 0 = Some v →
  not_handler σ v →
  ∃ msg,
    run [Thread 0; Thread 0; Thread 0; Thread 0]
      (mk_system [mk_thread false f a k AtCall] σ) =
    Some (mk_system
            [mk_thread false f a k
               (Finished (Raise AttributeError [VStr msg] ["invoker"]))] σ).
Proof.
  intros Ha Hv. eexists.
  cbn [run sched_step threads st lookup list_lookup].
  change (invoker_step (mk_thread false f a k AtCall) σ)
    with (Some (mk_thread false f a k AtSelf, σ)).
  cbn [insert list_insert run sched_step threads st lookup list_lookup].
  assert (H2 : invoker_step (mk_thread false f a k AtSelf) σ =
               Some (mk_thread false f a k (AtHasattr v), σ)).
  { unfold invoker_step, index. simpl. by rewrite Ha. }
  rewrite H2.
  cbn [insert list_insert run sched_step threads st lookup list_lookup].
  assert (H3 : invoker_step (mk_thread false f a k (AtHasattr v)) σ =
               Some (mk_thread false f a k (AtConnect v), σ)).
  { unfold invoker_step, hasattr. simpl.
    destruct v as [| | | | |l|]; try done. simpl in Hv.
    by destruct (heap σ !! l) as [[h|x]|]. }
  rewrite H3.
  cbn [insert list_insert run sched_step threads st lookup list_lookup].
  assert (H4 : invoker_step (mk_thread false f a k (AtConnect v)) σ =
               Some (mk_thread false f a k
                       (Finished
                          (Raise AttributeError
                             [VStr ("'" ++ type_name σ v ++
                                    "' object has no attribute 'Connect'")]
                             ["invoker"])), σ)).
  { unfold invoker_step, Connect, on_EvtHandler. simpl.
    destruct v as [| | | | |l|]; try done. simpl in Hv.
    by destruct (heap σ !! l) as [[h|x]|]. }
  rewrite H4. reflexivity.
Qed.

(** X4. [process] runs the callable exactly once and writes only to the
    [EventWithData] of its own event: every other object of the heap, the
    queue of posted events and the event type are as before, and the
    program's state is the one the callable left. *)
Theorem process_touches_only_its_signal evt σ x :
  heap σ !! event evt = Some (OEventWithData x) →
  (∀ l, l ≠ event evt → heap (process evt σ).2 !! l = heap σ !! l) ∧
  pending (process evt σ).2 = pending σ ∧
  world (process evt σ).2 = (func evt (args evt) (kwds evt) (world σ)).2 ∧
  _EVT_INVOKE_METHOD (process evt σ).2 = _EVT_INVOKE_METHOD σ.
Proof.
  intros H. rewrite (process_EventWithData _ _ x) by done. simpl.
  split; [|done]. intros l Hl. by rewrite lookup_insert_ne.
Qed.

(** *** Registration *)

Lemma solo_call_registration f a k σ l h o w' :
  a !! 0 = Some (VObj l) →
  heap σ !! l = Some (OEvtHandler h) →
  wired σ h →
  pending σ = [] →
  f a k (world σ) = (o, w') →
  ∃ n σ' h',
    solo_path n (mk_system [mk_thread false f a k AtCall] σ)
      (mk_system [mk_thread false f a k (Finished (marshalled o))] σ') ∧
    pending σ' = [] ∧
    heap σ' !! l = Some (OEvtHandler h') ∧
    is_Some (attrs h' !! marker) ∧ wired σ' h' ∧
    length (table h') =
      (if bool_decide (is_Some (attrs h !! marker)) then 0 else 1) +
      length (table h).
Proof.
  intros Ha Hl Hwired Hp Hf.
  assert (H1 : invoker_step (mk_thread false f a k AtCall) σ =
               Some (mk_thread false f a k AtSelf, σ)) by done.
  assert (H2 : invoker_step (mk_thread false f a k AtSelf) σ =
               Some (mk_thread false f a k (AtHasattr (VObj l)), σ)).
  { unfold invoker_step, index. simpl. by rewrite Ha. }
  destruct (attrs h !! marker) as [m|] eqn:Hm.
  - destruct (solo_from_construct f a k σ l h o w')
      as (σ' & Hpath & Hw & Hp' & Hl' & Hv);
      [done|done|by apply Hwired|done|done|].
    exists 8, σ', h. split; [|split; [done|split; [done|]]].
    + eapply solo_path_thread; [done|exact H1|].
      eapply solo_path_thread; [done|exact H2|].
      eapply solo_path_thread;
        [done|by eapply step_AtHasattr_marked; [|rewrite Hm]|].
      exact Hpath.
    + split; [by rewrite Hm|]. split; [|done].
      unfold wired. rewrite Hv. by apply Hwired.
  - set (h1 := mk_EvtHandler (attrs h)
                 ((-1, -1, _EVT_INVOKE_METHOD σ)%Z :: table h)).
    set (σ1 := set_heap (<[l := OEvtHandler h1]> (heap σ)) σ).
    set (h2 := mk_EvtHandler (<[marker := VBool true]> (attrs h1)) (table h1)).
    set (σ2 := set_heap (<[l := OEvtHandler h2]> (heap σ1)) σ1).
    assert (Hl1 : heap σ1 !! l = Some (OEvtHandler h1))
      by (simpl; by rewrite lookup_insert_eq).
    assert (Hl2 : heap σ2 !! l = Some (OEvtHandler h2))
      by (simpl; by rewrite lookup_insert_eq).
    assert (Hc2 : connected (_EVT_INVOKE_METHOD σ2) h2 = true)
      by apply (connected_cons _ h).
    destruct (solo_from_construct f a k σ2 l h2 o w')
      as (σ' & Hpath & Hw & Hp' & Hl' & Hv); [done..|].
    exists 10, σ', h2. split; [|split; [done|split; [done|]]].
    + eapply solo_path_thread; [done|exact H1|].
      eapply solo_path_thread; [done|exact H2|].
      eapply solo_path_thread; [done|by eapply step_AtHasattr_unmarked|].
      eapply solo_path_thread; [done|by eapply step_AtConnect|].
      eapply solo_path_thread; [done|by eapply (step_AtSetattr _ _ _ σ1)|].
      exact Hpath.
    + split; [simpl; by rewrite lookup_insert_eq|]. split; [|done].
      unfold wired. rewrite Hv. by intros _.
Qed.

(** The registration made by a completed call. *)
Lemma completed_call_registration f a k σ l h o σ' :
  a !! 0 = Some (VObj l) →
  heap σ !! l = Some (OEvtHandler h) →
  wired σ h →
  pending σ = [] →
  rtc step (mk_system [mk_thread false f a k AtCall] σ)
           (mk_system [mk_thread false f a k (Finished o)] σ') →
  ∃ h',
    heap σ' !! l = Some (OEvtHandler h') ∧
    is_Some (attrs h' !! marker) ∧ wired σ' h' ∧ pending σ' = [] ∧
    length (table h') =
      (if bool_decide (is_Some (attrs h !! marker)) then 0 else 1) +
      length (table h).
Proof.
  intros Ha Hl Hwired Hp Hrun.
  destruct (f a k (world σ)) as [o0 w'] eqn:Hf.
  destruct (solo_call_registration f a k σ l h o0 w' Ha Hl Hwired Hp Hf)
    as (n & σ1 & h' & Hpath & Hp1 & Hl1 & Hm1 & Hw1 & Hlen).
  assert (Hterm : ∀ s, ¬ step
            (mk_system [mk_thread false f a k (Finished (marshalled o0))] σ1) s)
    by by eapply solo_finished_terminal.
  destruct (solo_path_reachable _ _ _ _ Hpath Hterm Hrun) as [m Hm].
  apply (solo_path_finished _ _ _ o) in Hm; [|done].
  injection Hm as _ ->. by exists h'.
Qed.

(** X5. However a call from another thread on a wx object ends (in any run
    of the caller and the event loop), afterwards the object carries the
    marker and is connected, and the call has made exactly one [Connect] if
    the marker was absent before and none if it was present. *)
Theorem completed_call_registers_at_most_once f a k σ l h o σ' :
  a !! 0 = Some (VObj l) →
  heap σ !! l = Some (OEvtHandler h) →
  wired σ h →
  pending σ = [] →
  rtc step (mk_system [mk_thread false f a k AtCall] σ)
           (mk_system [mk_thread false f a k (Finished o)] σ') →
  ∃ h',
    heap σ' !! l = Some (OEvtHandler h') ∧
    is_Some (attrs h' !! marker) ∧ wired σ' h' ∧ pending σ' = [] ∧
    length (table h') =
      (if bool_decide (is_Some (attrs h !! marker)) then 0 else 1) +
      length (table h).
Proof.
  intros Ha Hl Hwired Hp Hrun.
  exact (completed_call_registration f a k σ l h o σ' Ha Hl Hwired Hp Hrun).
Qed.

(** X6. Calls made one after the other on the same wx object, from threads
    other than the main thread, connect it exactly once if it does not
    carry the marker at the start, and never if it does, however many calls
    there are (at least one). *)
Theorem calls_in_sequence_connect_once calls σ l h σ' :
  calls ≠ [] →
  heap σ !! l = Some (OEvtHandler h) →
  wired σ h →
  pending σ = [] →
  calls_in_sequence l calls σ σ' →
  Connect_count σ' l =
    (if bool_decide (is_Some (attrs h !! marker)) then 0 else 1) +
    Connect_count σ l.
Proof.
  intros Hne Hl Hwired Hp Hseq.
  assert (Hgen : ∀ calls σ σ', calls_in_sequence l calls σ σ' →
            ∀ h, heap σ !! l = Some (OEvtHandler h) → wired σ h →
                 pending σ = [] →
                 Connect_count σ' l =
                   (if bool_decide (is_Some (attrs h !! marker)) then 0
                    else match calls with [] => 0 | _ => 1 end) +
                   Connect_count σ l).
  { clear. intros calls σ σ' Hseq.
    induction Hseq as [σ|f a k o rest σ σ1 σ2 Ha Hrun Hrest IH];
      intros h Hl Hwired Hp.
    - by destruct (bool_decide _).
    - destruct (completed_call_registration f a k σ l h o σ1)
        as (h1 & Hl1 & Hm1 & Hw1 & Hp1 & Hlen); [done..|].
      rewrite (IH h1 Hl1 Hw1 Hp1). rewrite bool_decide_true by done.
      unfold Connect_count. rewrite Hl1, Hl. simpl. exact Hlen. }
  rewrite (Hgen calls σ σ' Hseq h Hl Hwired Hp).
  by destruct calls.
Qed.

(** *** Posted events *)

(** X7. In every state that concurrent calls can reach: each posted event
    that is still pending has a caller blocked in [wait] on it and its
    [EventWithData] is still as [__init__] left it; no event is pending
    twice; and when a caller is past [wait], [set()] has been called exactly
    once on its [EventWithData], the flag is set and the event is no longer
    pending. *)
Theorem posted_events_have_waiting_callers s0 :
  calling s0 →
  ∀ s, rtc step s0 s →
  (∀ x, x ∈ pending (st s) →
     fresh_signal (st s) (event x.2) ∧
     ∃ i t, threads s !! i = Some t ∧ pc t = AtWait x.2) ∧
  NoDup ((λ x, event x.2) <$> pending (st s)) ∧
  (∀ i t evt, threads s !! i = Some t → pc t = AtRead evt →
     ∃ x, heap (st s) !! event evt = Some (OEventWithData x) ∧
          flag (_event x) = true ∧ set_calls (_event x) = 1 ∧
          not_pending (st s) (event evt)).
Proof.
  intros Hcalling s Hrtc.
  pose proof (call_invariant_reachable _ _ (calling_invariant _ Hcalling) Hrtc)
    as [Hts Hdist Hpend Hnd].
  split; [done|]. split; [done|].
  intros i t evt Hi Hpc. destruct (Hts i t Hi) as (_ & _ & Hok).
  rewrite Hpc in Hok. destruct Hok as (_ & w & Hw & Hnp).
  eexists. split; [exact Hw|]. by destruct (out t w).
Qed.

(** X9. [process] does not clear an earlier outcome.  If it runs twice for
    the same event, the callable failing the first time and returning [v]
    the second, the [EventWithData] then holds both the result and the
    failure, [set()] has been called twice, and [invoke] returns [v]: the
    failure is not reported. *)
Theorem process_again_keeps_earlier_failure evt σ c x tb w1 v w2 :
  heap σ !! event evt = Some (OEventWithData EventWithData_new) →
  func evt (args evt) (kwds evt) (world σ) = (Raise c x tb, w1) →
  func evt (args evt) (kwds evt) w1 = (Ret v, w2) →
  ∃ y,
    heap (process evt (process evt σ).2).2 !! event evt =
      Some (OEventWithData y) ∧
    result y = Some v ∧ exception y = Some (c, x) ∧
    traceback y = Some (Some tb) ∧ set_calls (_event y) = 2 ∧
    invoke_read evt (process evt (process evt σ).2).2 =
      (Ret v, (process evt (process evt σ).2).2).
Proof.
  intros He H1 H2.
  rewrite (process_EventWithData _ σ EventWithData_new) by done.
  rewrite H1. simpl.
  erewrite process_EventWithData by (simpl; apply lookup_insert_eq).
  simpl. rewrite H2. simpl.
  eexists. split; [apply lookup_insert_eq|]. simpl.
  repeat (split; [done|]).
  by erewrite invoke_read_result; [|simpl; apply lookup_insert_eq|].
Qed.

End Further.

(** ** The further properties on the examples *)

(** The scenario of the specification: [wrapped_fail(obj)] raising
    [ValueError("bad")]. *)
Lemma cross_thread_call_raises_same_class_witness :
  ∃ σ',
    world σ' = tt ∧
    rtc step (mk_system [mk_thread false fail [VObj 1%positive] ∅ AtCall] one_window)
      (mk_system
         [mk_thread false fail [VObj 1%positive] ∅
            (Finished (Raise ValueError [VExc ValueError [VStr "bad"]] ["fail"]))]
         σ') ∧
    (∀ s, rtc step
            (mk_system [mk_thread false fail [VObj 1%positive] ∅ AtCall] one_window) s →
          rtc step s
            (mk_system
               [mk_thread false fail [VObj 1%positive] ∅
                  (Finished
                     (Raise ValueError [VExc ValueError [VStr "bad"]] ["fail"]))]
               σ')) ∧
    (ValueError ≠ KeyError →
     exc_message ValueError [VExc ValueError [VStr "bad"]] =
     exc_message ValueError [VStr "bad"]).
Proof.
  apply (cross_thread_call_raises_same_class fail [VObj 1%positive] ∅
           one_window 1%positive (mk_EvtHandler ∅ [])
           ValueError [VStr "bad"] ["fail"] tt).
  - reflexivity.
  - reflexivity.
  - intros [x Hx]. vm_compute in Hx. discriminate Hx.
  - reflexivity.
  - reflexivity.
Defined.

(** The turn of the loop for the event of a blocked caller. *)
Lemma wrapped_function_runs_only_in_loop_witness :
  ∃ s',
    step waiting s' ∧
    ((∃ (i : nat) t t',
        threads waiting !! i = Some t ∧
        invoker_step t (st waiting) = Some (t', st s') ∧
        threads s' = <[i := t']> (threads waiting) ∧
        world (st s') = world (st waiting)) ∨
     (∃ (k : nat) d evt,
        pending (st waiting) !! k = Some (d, evt) ∧
        threads s' = threads waiting ∧
        (world (st s') = world (st waiting) ∨
         world (st s') =
           (func evt (args evt) (kwds evt) (world (st waiting))).2))).
Proof.
  assert (Hd : ∃ σ', dispatch 0 (st waiting) = Some σ').
  { eexists. reflexivity. }
  destruct Hd as [σ' Hd].
  assert (Hstep : step waiting (mk_system (threads waiting) σ')).
  { unfold waiting in *. simpl in *. by eapply step_loop. }
  exists (mk_system (threads waiting) σ'). split; [exact Hstep|].
  apply (wrapped_function_runs_only_in_loop waiting
           (mk_system (threads waiting) σ')).
  - intros t Ht. simpl in Ht. apply list_elem_of_singleton in Ht as ->.
    reflexivity.
  - exact Hstep.
Defined.

Lemma worker_call_on_non_handler_witness :
  ∃ msg,
    run [Thread 0; Thread 0; Thread 0; Thread 0]
      (mk_system [mk_thread false add [VInt 5; VInt 2; VInt 3] ∅ AtCall] one_window) =
    Some (mk_system
            [mk_thread false add [VInt 5; VInt 2; VInt 3] ∅
               (Finished (Raise AttributeError [VStr msg] ["invoker"]))]
            one_window).
Proof.
  apply (worker_call_on_non_handler add [VInt 5; VInt 2; VInt 3] ∅ one_window
           (VInt 5)).
  - reflexivity.
  - exact I.
Defined.

Lemma process_touches_only_its_signal_witness :
  (∀ l, l ≠ event add_event →
        heap (process add_event posted).2 !! l = heap posted !! l) ∧
  pending (process add_event posted).2 = pending posted ∧
  world (process add_event posted).2 =
    (func add_event (args add_event) (kwds add_event) (world posted)).2 ∧
  _EVT_INVOKE_METHOD (process add_event posted).2 = _EVT_INVOKE_METHOD posted.
Proof.
  apply (process_touches_only_its_signal add_event posted EventWithData_new).
  reflexivity.
Defined.

Lemma process_again_keeps_earlier_failure_witness :
  ∃ y,
    heap (process flaky_event (process flaky_event flaky_posted).2).2
      !! event flaky_event = Some (OEventWithData y) ∧
    result y = Some (VInt 7) ∧
    exception y = Some (RuntimeError, [VStr "not ready"]) ∧
    traceback y = Some (Some ["flaky"]) ∧ set_calls (_event y) = 2 ∧
    invoke_read flaky_event
      (process flaky_event (process flaky_event flaky_posted).2).2 =
      (Ret (VInt 7),
       (process flaky_event (process flaky_event flaky_posted).2).2).
Proof.
  apply (process_again_keeps_earlier_failure flaky_event flaky_posted
           RuntimeError [VStr "not ready"] ["flaky"] true (VInt 7) true);
    reflexivity.
Defined.

Lemma two_callers_calling : calling two_callers.
Proof.
  split; [reflexivity|]. intros t Ht.
  assert (Hcases : t = worker add [VObj 1%positive; VInt 2; VInt 3] ∨
                   t = worker add [VObj 1%positive; VInt 20; VInt 30]).
  { simpl in Ht. apply elem_of_cons in Ht as [->|Ht]; [by left|].
    apply list_elem_of_singleton in Ht as ->. by right. }
  split; [by destruct Hcases as [->| ->]|].
  split; [by destruct Hcases as [->| ->]|].
  exists 1%positive. split; [by destruct Hcases as [->| ->]|].
  exists (mk_EvtHandler ∅ []). reflexivity.
Qed.

Lemma posted_events_have_waiting_callers_witness :
  calling two_callers ∧
  ∀ s, rtc step two_callers s →
    (∀ x, x ∈ pending (st s) →
       fresh_signal (st s) (event x.2) ∧
       ∃ i t, threads s !! i = Some t ∧ pc t = AtWait x.2) ∧
    NoDup ((λ x, event x.2) <$> pending (st s)) ∧
    (∀ i t evt, threads s !! i = Some t → pc t = AtRead evt →
       ∃ x, heap (st s) !! event evt = Some (OEventWithData x) ∧
            flag (_event x) = true ∧ set_calls (_event x) = 1 ∧
            not_pending (st s) (event evt)).
Proof.
  split; [exact two_callers_calling|].
  exact (posted_events_have_waiting_callers two_callers two_callers_calling).
Defined.

Lemma add_call_completes :
  ∃ σ',
    rtc step
      (mk_system [mk_thread false add [VObj 1%positive; VInt 2; VInt 3] ∅ AtCall]
         one_window)
      (mk_system
         [mk_thread false add [VObj 1%positive; VInt 2; VInt 3] ∅
            (Finished (Ret (VInt 5)))] σ').
Proof.
  destruct (solo_call_all_runs add [VObj 1%positive; VInt 2; VInt 3] ∅
              one_window 1%positive (mk_EvtHandler ∅ []) (Ret (VInt 5)) tt)
    as (σ' & _ & Hreach & _);
    [done|done|apply one_window_wired|done|done|].
  by exists σ'.
Qed.

Lemma completed_call_registers_at_most_once_witness :
  ∃ σ' h',
    rtc step
      (mk_system [mk_thread false add [VObj 1%positive; VInt 2; VInt 3] ∅ AtCall]
         one_window)
      (mk_system
         [mk_thread false add [VObj 1%positive; VInt 2; VInt 3] ∅
            (Finished (Ret (VInt 5)))] σ') ∧
    heap σ' !! 1%positive = Some (OEvtHandler h') ∧
    is_Some (attrs h' !! marker) ∧ wired σ' h' ∧ pending σ' = [] ∧
    length (table h') = 1 + 0.
Proof.
  destruct add_call_completes as [σ' Hrun]. exists σ'.
  destruct (completed_call_registers_at_most_once add
              [VObj 1%positive; VInt 2; VInt 3] ∅ one_window 1%positive
              (mk_EvtHandler ∅ []) (Ret (VInt 5)) σ')
    as (h' & H1 & H2 & H3 & H4 & H5).
  - reflexivity.
  - reflexivity.
  - intros [x Hx]. vm_compute in Hx. discriminate Hx.
  - reflexivity.
  - exact Hrun.
  - exists h'. repeat split; assumption.
Defined.

Lemma two_calls_in_sequence :
  ∃ σ'',
    calls_in_sequence 1%positive
      [(add, [VObj 1%positive; VInt 2; VInt 3], ∅);
       (add, [VObj 1%positive; VInt 20; VInt 30], ∅)]
      one_window σ''.
Proof.
  destruct add_call_completes as [σ1 Hrun1].
  destruct (completed_call_registration add
              [VObj 1%positive; VInt 2; VInt 3] ∅ one_window 1%positive
              (mk_EvtHandler ∅ []) (Ret (VInt 5)) σ1)
    as (h1 & Hl1 & Hm1 & Hw1 & Hp1 & _);
    [done|done|apply one_window_wired|done|done|].
  destruct (solo_call_all_runs add [VObj 1%positive; VInt 20; VInt 30] ∅
              σ1 1%positive h1 (Ret (VInt 50)) (world σ1))
    as (σ2 & _ & Hrun2 & _); [done..|].
  exists σ2.
  eapply calls_next; [done|exact Hrun1|].
  eapply calls_next; [done|exact Hrun2|].
  apply calls_done.
Qed.

Lemma calls_in_sequence_connect_once_witness :
  ∃ σ'',
    calls_in_sequence 1%positive
      [(add, [VObj 1%positive; VInt 2; VInt 3], ∅);
       (add, [VObj 1%positive; VInt 20; VInt 30], ∅)]
      one_window σ'' ∧
    Connect_count σ'' 1%positive = 1 + Connect_count one_window 1%positive.
Proof.
  destruct two_calls_in_sequence as [σ'' Hseq]. exists σ''.
  split; [exact Hseq|].
  assert (Hne : [(add, [VObj 1%positive; VInt 2; VInt 3], (∅ : gmap string val));
                 (add, [VObj 1%positive; VInt 20; VInt 30], ∅)] ≠ [])
    by discriminate.
  assert (Hl : heap one_window !! 1%positive =
               Some (OEvtHandler (mk_EvtHandler ∅ []))) by reflexivity.
  assert (Hw : wired one_window (mk_EvtHandler ∅ [])).
  { intros [x Hx]. vm_compute in Hx. discriminate Hx. }
  assert (Hp : pending one_window = []) by reflexivity.
  exact (calls_in_sequence_connect_once _ one_window 1%positive
           (mk_EvtHandler ∅ []) σ'' Hne Hl Hw Hp Hseq).
Defined.

(** ** Progress: no caller is ever stuck for good *)

Section Progress.

Context {W : Type}.
Implicit Types (σ : state W) (evt : MethodInvocationEvent W) (t : thread W)
  (f : callable W) (e : loc) (l : loc) (s : system W).

(** What a statement of a thread does to the wx objects. *)
Lemma thread_step_handler t σ t' σ' l h :
  thread_ok σ t →
  invoker_step t σ = Some (t', σ') →
  heap σ !! l = Some (OEvtHandler h) →
  ∃ h',
    heap σ' !! l = Some (OEvtHandler h') ∧
    (h' = h ∨
     (pc t = AtConnect (VObj l) ∧
      h' = mk_EvtHandler (attrs h)
             ((-1, -1, _EVT_INVOKE_METHOD σ)%Z :: table h)) ∨
     (pc t = AtSetattr (VObj l) ∧
      h' = mk_EvtHandler (<[marker := VBool true]> (attrs h)) (table h))).
Proof.
  intros (Hm & (l0 & Ha & h0 & Hl0) & Hpc) Hstep Hl.
  destruct t as [m f a k p]. simpl in *. subst m.
  destruct p as [| |v|v|v| |evt|evt|evt|o]; simpl in *.
  - injection Hstep as <- <-. eauto.
  - unfold invoker_step, index in Hstep. simpl in Hstep. rewrite Ha in Hstep.
    injection Hstep as <- <-. eauto.
  - unfold invoker_step in Hstep. simpl in Hstep.
    destruct (hasattr v marker σ); injection Hstep as <- <-; eauto.
  - rewrite Hpc in Ha. injection Ha as ->.
    erewrite step_AtConnect in Hstep by done. injection Hstep as <- <-.
    simpl. destruct (decide (l0 = l)) as [->|Hne].
    + rewrite lookup_insert_eq. rewrite Hl in Hl0. injection Hl0 as <-.
      eexists. split; [done|]. right. left. done.
    + rewrite lookup_insert_ne by done. eauto.
  - rewrite Hpc in Ha. injection Ha as ->.
    erewrite step_AtSetattr in Hstep by done. injection Hstep as <- <-.
    simpl. destruct (decide (l0 = l)) as [->|Hne].
    + rewrite lookup_insert_eq. rewrite Hl in Hl0. injection Hl0 as <-.
      eexists. split; [done|]. right. right. done.
    + rewrite lookup_insert_ne by done. eauto.
  - injection Hstep as <- <-. simpl.
    rewrite lookup_insert_ne by by eapply fresh_heap_ne. eauto.
  - destruct Hpc as (Hown & Hfresh & Hnp).
    destruct (own_fields _ _ Hown) as (_ & Hargs & _). simpl in Hargs.
    erewrite step_AtPost in Hstep; [|by rewrite Hargs|done].
    injection Hstep as <- <-. simpl. eauto.
  - unfold invoker_step in Hstep. simpl in Hstep.
    destruct (is_set (event evt) σ); [|done]. injection Hstep as <- <-. eauto.
  - destruct Hpc as (Hown & w & Hw & Hnp).
    unfold invoker_step in Hstep. simpl in Hstep.
    unfold out in Hw. simpl in Hw.
    destruct (f a k w) as [[v|c x tb] w1] eqn:Hf; simpl in Hw.
    + erewrite invoke_read_result in Hstep; [|exact Hw|done].
      injection Hstep as <- <-. eauto.
    + erewrite invoke_read_no_result in Hstep; [|exact Hw|done].
      erewrite reraise_stored_EventWithData in Hstep; [|exact Hw|done].
      injection Hstep as <- <-. simpl.
      rewrite lookup_insert_ne; [by eauto|].
      intros Heq. rewrite Heq in Hw. by rewrite Hl in Hw.
  - done.
Qed.

Lemma connected_mono eventType h h' :
  connected eventType h = true →
  (h' = h ∨
   h' = mk_EvtHandler (attrs h) ((-1, -1, eventType)%Z :: table h) ∨
   h' = mk_EvtHandler (<[marker := VBool true]> (attrs h)) (table h)) →
  connected eventType h' = true.
Proof.
  intros Hc [->|[->| ->]]; [done| |done].
  apply (connected_cons eventType h).
Qed.

(** What a turn of the loop does to the wx objects and to the event it
    takes. *)
Lemma loop_step_handler σ i σ' :
  (∀ x, x ∈ pending σ → fresh_signal σ (event x.2)) →
  dispatch i σ = Some σ' →
  _EVT_INVOKE_METHOD σ' = _EVT_INVOKE_METHOD σ ∧
  (∀ l h, heap σ !! l = Some (OEvtHandler h) →
          heap σ' !! l = Some (OEvtHandler h)) ∧
  (∀ d evt h, pending σ !! i = Some (d, evt) →
     heap σ !! d = Some (OEvtHandler h) →
     connected (_EVT_INVOKE_METHOD σ) h = true →
     is_set (event evt) σ' = true).
Proof.
  intros Hpend Hd. unfold dispatch in Hd.
  destruct (pending σ !! i) as [[d evt]|] eqn:Hi; [|done].
  assert (Hf : fresh_signal σ (event evt)).
  { apply (Hpend (d, evt)). by eapply list_elem_of_lookup_2. }
  simpl in Hd.
  destruct (heap σ !! d) as [[h|x]|] eqn:Hd';
    try (injection Hd as <-; split; [done|]; split; [done|];
         intros d0 evt0 h0 [= <- <-] Hh0; by rewrite Hh0 in Hd').
  destruct (connected (_EVT_INVOKE_METHOD σ) h) eqn:Hc.
  - unfold handler in Hd.
    erewrite process_EventWithData in Hd by exact Hf.
    injection Hd as <-. simpl. split; [done|]. split.
    + intros l h0 Hl. rewrite lookup_insert_ne; [done|].
      intros Heq. rewrite <- Heq in Hl. unfold fresh_signal in Hf.
      by rewrite Hf in Hl.
    + intros d0 evt0 h0 [= <- <-] _ _. unfold is_set. simpl.
      rewrite lookup_insert_eq.
      by destruct (func evt (args evt) (kwds evt) (world σ)).1.
  - injection Hd as <-. split; [done|]. split; [done|].
    intros d0 evt0 h0 [= <- <-] Hh0 Hc0. rewrite Hd' in Hh0.
    injection Hh0 as <-. by rewrite Hc in Hc0.
Qed.

Lemma wired_after eventType h h' σ σ' :
  _EVT_INVOKE_METHOD σ = eventType →
  _EVT_INVOKE_METHOD σ' = eventType →
  wired σ h →
  (h' = h ∨
   h' = mk_EvtHandler (attrs h) ((-1, -1, eventType)%Z :: table h) ∨
   (connected eventType h = true ∧
    h' = mk_EvtHandler (<[marker := VBool true]> (attrs h)) (table h))) →
  wired σ' h'.
Proof.
  intros H1 H2 Hw Hcases. unfold wired in *. rewrite H2. rewrite H1 in Hw.
  destruct Hcases as [->|[->|[Hc ->]]]; [done| |done].
  intros _. apply (connected_cons eventType h).
Qed.

(** A thread that has just entered [wait] has just posted its event to its
    object. *)
Lemma step_to_AtWait t σ t' σ' evt :
  thread_ok σ t →
  invoker_step t σ = Some (t', σ') →
  pc t' = AtWait evt →
  ∃ l, t_args t !! 0 = Some (VObj l) ∧
       pending σ' = (pending σ ++ [(l, evt)])%list.
Proof.
  intros (Hm & (l & Ha & h & Hl) & Hpc) Hstep Hpc'.
  destruct t as [m f a k p]. simpl in *. subst m.
  destruct p as [| |v|v|v| |evt0|evt0|evt0|o]; simpl in *.
  - by injection Hstep as <- <-.
  - unfold invoker_step, index in Hstep. simpl in Hstep. rewrite Ha in Hstep.
    by injection Hstep as <- <-.
  - unfold invoker_step in Hstep. simpl in Hstep.
    by destruct (hasattr v marker σ); injection Hstep as <- <-.
  - rewrite Hpc in Ha. injection Ha as ->.
    erewrite step_AtConnect in Hstep by done. by injection Hstep as <- <-.
  - rewrite Hpc in Ha. injection Ha as ->.
    erewrite step_AtSetattr in Hstep by done. by injection Hstep as <- <-.
  - by injection Hstep as <- <-.
  - destruct Hpc as (Hown & Hfresh & Hnp).
    destruct (own_fields _ _ Hown) as (_ & Hargs & _). simpl in Hargs.
    erewrite step_AtPost in Hstep; [|by rewrite Hargs|done].
    injection Hstep as <- <-. simpl in Hpc'. injection Hpc' as <-.
    exists l. by split.
  - unfold invoker_step in Hstep. simpl in Hstep.
    destruct (is_set (event evt0) σ); [|done]. by injection Hstep as <- <-.
  - unfold invoker_step, advance in Hstep. simpl in Hstep.
    by destruct (invoke_read evt0 σ) as [[v|c x tb] σ1];
      injection Hstep as <- <-.
  - done.
Qed.

(** After its own statement, the thread's object is connected whenever the
    thread relies on it. *)
Lemma thread_step_own_target t σ t' σ' l h h' :
  thread_ok σ t →
  invoker_step t σ = Some (t', σ') →
  t_args t !! 0 = Some (VObj l) →
  heap σ !! l = Some (OEvtHandler h) →
  heap σ' !! l = Some (OEvtHandler h') →
  wired σ h →
  (needs_handler (pc t) = true →
   connected (_EVT_INVOKE_METHOD σ) h = true) →
  needs_handler (pc t') = true →
  connected (_EVT_INVOKE_METHOD σ) h' = true.
Proof.
  intros Hok Hstep Ha Hl Hl' Hw Hc Hn.
  destruct (thread_step_handler t σ t' σ' l h Hok Hstep Hl)
    as (h1 & Hl1 & Hcases).
  rewrite Hl' in Hl1. injection Hl1 as <-.
  destruct Hok as (Hm & _ & Hpc).
  destruct t as [m f a k p]. simpl in *. subst m.
  destruct p as [| |v|v|v| |evt|evt|evt|o]; simpl in *.
  - by injection Hstep as <- <-.
  - unfold invoker_step, index in Hstep. simpl in Hstep. rewrite Ha in Hstep.
    by injection Hstep as <- <-.
  - (* AtHasattr: the marker was seen *)
    rewrite Ha in Hpc. injection Hpc as <-.
    unfold invoker_step, hasattr in Hstep. simpl in Hstep. rewrite Hl in Hstep.
    destruct (bool_decide (is_Some (attrs h !! marker))) eqn:Hb;
      injection Hstep as <- <-; [|done].
    apply bool_decide_eq_true in Hb. rewrite Hl in Hl'. injection Hl' as <-.
    by apply Hw.
  - (* AtConnect *)
    rewrite Ha in Hpc. injection Hpc as <-.
    erewrite step_AtConnect in Hstep by done. injection Hstep as <- <-.
    simpl in Hl'. rewrite lookup_insert_eq in Hl'. injection Hl' as <-.
    apply (connected_cons _ h).
  - eapply connected_mono; [by apply Hc|].
    destruct Hcases as [->|[[_ ->]|[_ ->]]]; eauto.
  - eapply connected_mono; [by apply Hc|].
    destruct Hcases as [->|[[_ ->]|[_ ->]]]; eauto.
  - eapply connected_mono; [by apply Hc|].
    destruct Hcases as [->|[[_ ->]|[_ ->]]]; eauto.
  - eapply connected_mono; [by apply Hc|].
    destruct Hcases as [->|[[_ ->]|[_ ->]]]; eauto.
  - unfold invoker_step, advance in Hstep. simpl in Hstep.
    by destruct (invoke_read evt σ) as [[v|c x tb] σ1];
      injection Hstep as <- <-.
  - done.
Qed.

Lemma calling_live_invariant s :
  calling s →
  (∀ l h, heap (st s) !! l = Some (OEvtHandler h) → wired (st s) h) →
  live_invariant s.
Proof.
  intros Hcalling Hwired. split.
  - by apply calling_invariant.
  - intros i t l h Hi Ha Hl. split; [by eapply Hwired|].
    apply list_elem_of_lookup_2 in Hi.
    destruct Hcalling as [_ Hts]. destruct (Hts t Hi) as (_ & Hpc & _).
    by rewrite Hpc.
  - intros i t evt Hi Hpc. apply list_elem_of_lookup_2 in Hi.
    destruct Hcalling as [_ Hts]. destruct (Hts t Hi) as (_ & Hpc' & _).
    by rewrite Hpc' in Hpc.
Qed.

Lemma live_invariant_thread_step ts σ i t t' σ' :
  live_invariant (mk_system ts σ) →
  ts !! i = Some t →
  invoker_step t σ = Some (t', σ') →
  live_invariant (mk_system (<[i := t']> ts) σ').
Proof.
  intros [Hcalls Htarget Hposted] Hi Hstep. simpl in *.
  pose proof (call_invariant_thread_step ts σ i t t' σ' Hcalls Hi Hstep)
    as Hcalls'.
  destruct Hcalls as [Hts Hdist Hpend Hnd]. simpl in *.
  assert (Hok : thread_ok σ t) by by eapply Hts.
  assert (Hfresh : ∀ x, x ∈ pending σ → fresh_signal σ (event x.2))
    by (intros x Hx; by apply Hpend).
  destruct (thread_step_effect t σ t' σ' Hok Hfresh Hstep)
    as (Hok' & Hhandlers & Hframe & Hwait & Hcases).
  assert (Hevt : _EVT_INVOKE_METHOD σ' = _EVT_INVOKE_METHOD σ).
  { destruct Hok as (Hm & _). by eapply worker_step_keeps_world. }
  assert (Hargs : t_args t' = t_args t).
  { rewrite (invoker_step_goto _ _ _ _ Hstep). done. }
  assert (Hlen : i < length ts) by by eapply lookup_lt_Some.
  assert (Hsub : ∀ x, x ∈ pending σ → x ∈ pending σ').
  { intros x Hx. destruct Hcases as [[-> _]|(evt & l & _ & _ & -> & _)];
      [done|]. apply elem_of_app. by left. }
  split; [done| |]; simpl.
  - (* the objects of the threads *)
    intros j tj l h' Hj Ha Hl'.
    assert (∃ tj0, ts !! j = Some tj0 ∧ t_args tj0 = t_args tj ∧
                   (j ≠ i → tj0 = tj) ∧ (j = i → tj0 = t ∧ tj = t'))
      as (tj0 & Hj0 & Hargs0 & Hother & Hsame).
    { destruct (decide (i = j)) as [->|Hne].
      - rewrite list_lookup_insert_eq in Hj by done. injection Hj as <-.
        exists t. by eauto.
      - rewrite list_lookup_insert_ne in Hj by done. exists tj.
        split; [done|]. split; [done|]. split; [done|]. by intros ->. }
    destruct (Hts j tj0 Hj0) as (_ & (l0 & Ha0 & h & Hl) & _).
    rewrite Hargs0, Ha in Ha0. injection Ha0 as <-.
    destruct (Htarget j tj0 l h Hj0) as [Hw Hc]; [by rewrite Hargs0|done|].
    destruct (thread_step_handler t σ t' σ' l h Hok Hstep Hl)
      as (h1 & Hl1 & Hh1).
    rewrite Hl' in Hl1. injection Hl1 as <-.
    split.
    + (* wired *)
      apply (wired_after (_EVT_INVOKE_METHOD σ) h h' σ σ' eq_refl Hevt Hw).
      destruct Hh1 as [->|[[_ ->]|[Hpc ->]]]; [by left|by right; left|].
      right. right. split; [|done].
      destruct (Htarget i t l h Hi) as [_ Hci]; [|done|].
      * destruct Hok as (_ & _ & Hokpc). by rewrite Hpc in Hokpc.
      * apply Hci. by rewrite Hpc.
    + (* connected when relied on *)
      intros Hn. rewrite Hevt.
      destruct (decide (j = i)) as [->|Hne].
      * destruct (Hsame eq_refl) as [-> ->].
        apply (thread_step_own_target t σ t' σ' l h h' Hok Hstep);
          [by rewrite <- Hargs|done..].
      * rewrite (Hother Hne) in *.
        eapply connected_mono; [by apply Hc|].
        destruct Hh1 as [->|[[_ ->]|[_ ->]]]; eauto.
  - (* an event waited for is pending *)
    intros j tj evt Hj Hpc Hf.
    destruct (decide (i = j)) as [->|Hne].
    + rewrite list_lookup_insert_eq in Hj by done. injection Hj as <-.
      destruct (step_to_AtWait t σ t' σ' evt Hok Hstep Hpc) as (l & Ha & Hp).
      exists l. rewrite Hargs. split; [done|]. rewrite Hp.
      apply elem_of_app. right. by apply list_elem_of_singleton.
    + rewrite list_lookup_insert_ne in Hj by done.
      destruct (thread_ok_holds σ tj (event evt) (Hts j tj Hj)) as [x Hx].
      { exists evt. split; [by apply held_AtWait|done]. }
      assert (Hnt : ¬ holds t (event evt)).
      { intros (evt' & Hh & Heq).
        eapply (Hdist i j t tj evt' evt); eauto using held_AtWait. }
      pose proof (Hframe _ _ Hx Hnt) as Hx'.
      unfold fresh_signal in Hf. rewrite Hf in Hx'. injection Hx' as <-.
      destruct (Hposted j tj evt Hj Hpc Hx) as (l & Ha & Hin).
      exists l. split; [done|]. by apply Hsub.
Qed.

Lemma elem_of_delete_ne {A} (q : list A) i k x :
  q !! k = Some x → k ≠ i → x ∈ delete i q.
Proof.
  intros Hk Hne. destruct (decide (k < i)) as [Hlt|Hge].
  - apply (list_elem_of_lookup_2 _ k).
    by rewrite list_lookup_delete_lt.
  - destruct k as [|k]; [lia|].
    apply (list_elem_of_lookup_2 _ k).
    rewrite list_lookup_delete_ge by lia. done.
Qed.

Lemma live_invariant_loop_step ts σ i σ' :
  live_invariant (mk_system ts σ) →
  dispatch i σ = Some σ' →
  live_invariant (mk_system ts σ').
Proof.
  intros [Hcalls Htarget Hposted] Hd. simpl in *.
  pose proof (call_invariant_loop_step ts σ i σ' Hcalls Hd) as Hcalls'.
  destruct Hcalls as [Hts Hdist Hpend Hnd]. simpl in *.
  assert (Hfresh : ∀ x, x ∈ pending σ → fresh_signal σ (event x.2))
    by (intros x Hx; by apply Hpend).
  destruct (loop_step_handler σ i σ' Hfresh Hd) as (Hevt & Hsame & Hset).
  destruct (loop_step_effect σ i σ' Hfresh Hd)
    as (d & evt0 & Hi & Hp & Hheap).
  split; [done| |]; simpl.
  - intros j tj l h' Hj Ha Hl'.
    destruct (Hts j tj Hj) as (_ & (l0 & Ha0 & h & Hl) & _).
    rewrite Ha in Ha0. injection Ha0 as <-.
    rewrite (Hsame l h Hl) in Hl'. injection Hl' as <-.
    destruct (Htarget j tj l h Hj Ha Hl) as [Hw Hc].
    unfold wired. rewrite Hevt. done.
  - intros j tj evt Hj Hpc Hf.
    assert (Hf0 : fresh_signal σ (event evt)).
    { unfold fresh_signal in *. destruct Hheap as [Hh|Hh]; rewrite Hh in Hf;
        [done|].
      destruct (decide (event evt0 = event evt)) as [Heq|Hne].
      - rewrite Heq, lookup_insert_eq in Hf. injection Hf as Hf.
        by destruct (func evt0 (args evt0) (kwds evt0) (world σ)).1.
      - by rewrite lookup_insert_ne in Hf. }
    destruct (Hposted j tj evt Hj Hpc Hf0) as (l & Ha & Hin).
    exists l. split; [done|]. rewrite Hp.
    apply list_elem_of_lookup_1 in Hin as [k Hk].
    destruct (decide (k = i)) as [->|Hne]; [|by eapply elem_of_delete_ne].
    (* the event taken by the loop: its signal is now set *)
    rewrite Hi in Hk. injection Hk as -> ->.
    destruct (Hts j tj Hj) as (_ & (l0 & Ha0 & h & Hl) & _).
    rewrite Ha in Ha0. injection Ha0 as <-.
    destruct (Htarget j tj l h Hj Ha Hl) as [_ Hc].
    assert (His : is_set (event evt) σ' = true).
    { eapply Hset; [done|done|]. apply Hc. by rewrite Hpc. }
    unfold is_set in His. unfold fresh_signal in Hf. by rewrite Hf in His.
Qed.

Lemma live_invariant_step s s' :
  live_invariant s → step s s' → live_invariant s'.
Proof.
  intros Hinv Hstep. destruct Hstep.
  - by eapply live_invariant_thread_step.
  - by eapply live_invariant_loop_step.
Qed.

Lemma live_invariant_reachable s s' :
  live_invariant s → rtc step s s' → live_invariant s'.
Proof.
  intros Hinv Hrtc. induction Hrtc as [|s1 s2 s3 Hstep _ IH]; [done|].
  apply IH. by eapply live_invariant_step.
Qed.

(** *** Every statement brings the end of the call nearer *)

Lemma invoker_step_remaining t σ t' σ' :
  invoker_step t σ = Some (t', σ') → (remaining t' σ' < remaining t σ)%nat.
Proof.
  unfold invoker_step, advance, remaining.
  destruct (pc t) as [| |v|v|v| |evt|evt|evt|o] eqn:Hpc.
  - destruct (IsMainThread t).
    + destruct (call _ _ _ σ) as [[v|c x tb] σ1]; intros [= <- <-]; simpl; lia.
    + intros [= <- <-]; simpl; lia.
  - destruct (index _ _ _ σ) as [[v|c x tb] σ1]; intros [= <- <-]; simpl; lia.
  - destruct (hasattr v marker σ); intros [= <- <-]; simpl; lia.
  - destruct (Connect _ _ _ _ σ) as [[v0|c x tb] σ1]; intros [= <- <-];
      simpl; lia.
  - destruct (set_marker _ σ) as [[v0|c x tb] σ1]; intros [= <- <-];
      simpl; lia.
  - destruct (MethodInvocationEvent_init _ _ _ σ) as [[v0|c x tb] σ1];
      intros [= <- <-]; simpl; lia.
  - destruct (invoke_post _ σ) as [[v0|c x tb] σ1]; intros [= <- <-]; simpl;
      [case_match|]; lia.
  - destruct (is_set (event evt) σ); [|done]. intros [= <- <-]; simpl; lia.
  - destruct (invoke_read _ σ) as [[v0|c x tb] σ1]; intros [= <- <-];
      simpl; lia.
  - done.
Qed.

Lemma invoker_step_enabled t σ :
  (∀ o, pc t ≠ Finished o) →
  (∀ evt, pc t = AtWait evt → is_set (event evt) σ = true) →
  ∃ t' σ', invoker_step t σ = Some (t', σ').
Proof.
  intros Hfin Hwait. unfold invoker_step, advance.
  destruct (pc t) as [| |v|v|v| |evt|evt|evt|o] eqn:Hpc.
  - destruct (IsMainThread t); [|by eauto].
    destruct (call _ _ _ σ) as [[v|c x tb] σ1]; eauto.
  - destruct (index _ _ _ σ) as [[v|c x tb] σ1]; eauto.
  - destruct (hasattr v marker σ); eauto.
  - destruct (Connect _ _ _ _ σ) as [[v0|c x tb] σ1]; eauto.
  - destruct (set_marker _ σ) as [[v0|c x tb] σ1]; eauto.
  - destruct (MethodInvocationEvent_init _ _ _ σ) as [[v0|c x tb] σ1]; eauto.
  - destruct (invoke_post _ σ) as [[v0|c x tb] σ1]; eauto.
  - rewrite (Hwait evt eq_refl). eauto.
  - destruct (invoke_read _ σ) as [[v0|c x tb] σ1]; eauto.
  - by destruct (Hfin o).
Qed.

(** A call that has not ended can be brought nearer to its end by one
    step: a statement of its thread or, while the thread is blocked in
    [wait], the turn of the loop that takes its event. *)
Lemma live_step s (i : nat) t :
  live_invariant s →
  threads s !! i = Some t →
  (∀ o, pc t ≠ Finished o) →
  ∃ s' t',
    step s s' ∧ threads s' !! i = Some t' ∧
    (remaining t' (st s') < remaining t (st s))%nat.
Proof.
  intros Hinv Hi Hfin. destruct s as [ts σ]. simpl in *.
  assert (Hlen : i < length ts) by by eapply lookup_lt_Some.
  assert (Hblocked :
    (∃ evt, pc t = AtWait evt ∧ is_set (event evt) σ = false) ∨
    (∀ evt, pc t = AtWait evt → is_set (event evt) σ = true)).
  { destruct (pc t) as [| |v|v|v| |evt|evt|evt|o]; try (by right).
    destruct (is_set (event evt) σ) eqn:His.
    - right. by intros evt' [= <-].
    - left. by exists evt. }
  destruct Hblocked as [(evt & Hpc & Hunset)|Hfree].
  - (* blocked: the loop takes the event *)
    destruct Hinv as [[Hts Hdist Hpend Hnd] Htarget Hposted]. simpl in *.
    assert (Hfresh : ∀ x, x ∈ pending σ → fresh_signal σ (event x.2))
      by (intros x Hx; by apply Hpend).
    destruct (Hts i t Hi) as (_ & (l & Ha & h & Hl) & Hok).
    rewrite Hpc in Hok. destruct Hok as (Hown & [Hf|(w & Hw & _)]).
    2:{ unfold is_set in Hunset. rewrite Hw in Hunset.
        by destruct (out t w). }
    destruct (Hposted i t evt Hi Hpc Hf) as (l' & Ha' & Hin).
    rewrite Ha in Ha'. injection Ha' as <-.
    apply list_elem_of_lookup_1 in Hin as [k Hk].
    destruct (dispatch k σ) as [σ'|] eqn:Hd.
    2:{ unfold dispatch in Hd. rewrite Hk in Hd. simpl in Hd.
        by repeat case_match. }
    destruct (loop_step_handler σ k σ' Hfresh Hd) as (_ & _ & Hset).
    destruct (Htarget i t l h Hi Ha Hl) as [_ Hc].
    exists (mk_system ts σ'), t. split; [by eapply step_loop|].
    split; [done|]. simpl. unfold remaining. rewrite Hpc, Hunset.
    rewrite (Hset l evt h Hk Hl); [lia|]. apply Hc. by rewrite Hpc.
  - (* the thread can move *)
    destruct (invoker_step_enabled t σ Hfin Hfree) as (t' & σ' & Hstep).
    exists (mk_system (<[i := t']> ts) σ'), t'.
    split; [by eapply step_thread|]. simpl.
    split; [by rewrite list_lookup_insert_eq|].
    by eapply invoker_step_remaining.
Qed.

Lemma live_run (n : nat) s (i : nat) t :
  live_invariant s →
  threads s !! i = Some t →
  (remaining t (st s) ≤ n)%nat →
  ∃ s' t' o,
    rtc step s s' ∧ threads s' !! i = Some t' ∧ pc t' = Finished o.
Proof.
  revert s t. induction n as [|n IH]; intros s t Hinv Hi Hn.
  - exists s, t. unfold remaining in Hn.
    destruct (pc t) as [| |v|v|v| |evt|evt|evt|o] eqn:Hpc;
      try (simpl in Hn; lia); [|by exists o].
    destruct (is_set (event evt) (st s)); lia.
  - assert (Hended : (∃ o, pc t = Finished o) ∨ (∀ o, pc t ≠ Finished o)).
    { destruct (pc t); try (by right). left. by eexists. }
    destruct Hended as [[o Ho]|Hnot].
    { exists s, t, o. done. }
    destruct (live_step s i t Hinv Hi Hnot) as (s1 & t1 & Hstep & Hi1 & Hlt).
    destruct (IH s1 t1) as (s' & t' & o & Hrtc & Hi' & Hpc');
      [by eapply live_invariant_step|done|lia|].
    exists s', t', o. split; [by eapply rtc_l|done].
Qed.

(** X10. No caller is ever stuck for good.  Any number of threads call
    wrapped methods on wx objects whose marker, if present, is backed by a
    connected handler.  Then from every state they can reach, under every
    interleaving (the race on the marker included), each call can still be
    run to its end: for each thread there is a continuation in which its
    call has returned or raised. *)
Theorem every_caller_can_complete s0 :
  calling s0 →
  (∀ l h, heap (st s0) !! l = Some (OEvtHandler h) → wired (st s0) h) →
  ∀ s i t,
    rtc step s0 s →
    threads s !! i = Some t →
    ∃ s' t' o,
      rtc step s s' ∧ threads s' !! i = Some t' ∧ pc t' = Finished o.
Proof.
  intros Hcalling Hwired s i t Hrtc Hi.
  eapply (live_run (remaining t (st s))); [|done|done].
  eapply live_invariant_reachable; [|done].
  by apply calling_live_invariant.
Qed.

End Progress.

Lemma every_caller_can_complete_witness :
  calling two_callers ∧
  (∀ l h, heap (st two_callers) !! l = Some (OEvtHandler h) →
          wired (st two_callers) h) ∧
  ∀ s i t,
    rtc step two_callers s →
    threads s !! i = Some t →
    ∃ s' t' o,
      rtc step s s' ∧ threads s' !! i = Some t' ∧ pc t' = Finished o.
Proof.
  assert (Hw : ∀ l h, heap (st two_callers) !! l = Some (OEvtHandler h) →
                      wired (st two_callers) h).
  { intros l h Hl. simpl in Hl.
    apply lookup_singleton_Some in Hl as [_ Hh]. injection Hh as <-.
    intros [x Hx]. vm_compute in Hx. discriminate Hx. }
  split; [exact two_callers_calling|]. split; [exact Hw|].
  exact (every_caller_can_complete two_callers two_callers_calling Hw).
Defined.
